(** * Rodionov's sequential regime-shift detector ([rodionov.py])

    A shallow embedding of [rodionov_regimes] and the properties of its
    two outputs, the list of regime-shift indices and the RSI trace.

    Numbers.  The observations, the regime mean, its bounds and the RSI
    values are modelled as rationals [Q]; Python's [==], [<] and [>] on
    them are [Qeq] and the boolean tests [ltb], [gtb] below.  Rounding,
    infinities and NaN of the binary64 numbers numpy computes with are not
    part of the model.  The two library calls whose value is not rational,
    [scipy.stats.t.ppf] and [np.sqrt], are parameters of the development:
    every definition and theorem is stated for arbitrary [t_ppf] and
    [np_sqrt]. *)

From Stdlib Require Import QArith Qabs ZArith List Lia Lqa Bool Sorted.
Import ListNotations.
Open Scope Q_scope.

(** ** The numpy operations the function uses *)

(** [a < b] and [a > b] on numbers. *)
Definition ltb (a b : Q) : bool := negb (Qle_bool b a).
Definition gtb (a b : Q) : bool := negb (Qle_bool a b).

(** The integer [m] used as a number. *)
Definition of_nat (m : nat) : Q := inject_Z (Z.of_nat m).

(** [xs[a:b]]: Python slices clamp at the end of the sequence and are
    empty when [b <= a]. *)
Definition slice (xs : list Q) (a b : nat) : list Q :=
  firstn (b - a) (skipn a xs).

(** [xs[k]] for an index the caller keeps below [len(xs)]. *)
Definition get (xs : list Q) (k : nat) : Q := nth k xs 0.

(** [xs[k] = v], the in-place store into an array. *)
Fixpoint set (xs : list Q) (k : nat) (v : Q) : list Q :=
  match xs, k with
  | [], _ => []
  | _ :: xs', O => v :: xs'
  | x :: xs', S k' => x :: set xs' k' v
  end.

(** [np.zeros(m)]. *)
Definition np_zeros (m : nat) : list Q := repeat 0 m.

(** [range(a, b)]. *)
Definition range (a b : nat) : list nat := seq a (b - a).

Definition np_sum (xs : list Q) : Q := fold_left Qplus xs 0.

(** [np.mean(xs)]: the sum divided by the number of elements. *)
Definition np_mean (xs : list Q) : Q := np_sum xs / of_nat (length xs).

(** [np.var(xs)] with its default [ddof = 0]:
    [mean(abs(xs - xs.mean()) ** 2)]. *)
Definition np_var (xs : list Q) : Q :=
  let m := np_mean xs in
  np_mean (map (fun x => Qabs (x - m) * Qabs (x - m)) xs).

(** ** The local variables of the scan *)

Record state : Type := mkState {
  i : nat;
  r1 : Q;
  r1_lower : Q;
  r1_upper : Q;
  rsi : list Q;
  regime_shift_indices : list nat
}.

(** What a call can do.  The source has no [raise]; [Raise] is here so
    that the two failure conditions of the design can be stated. *)
Inductive error : Type := InvalidParameter | DegenerateInput.

Inductive outcome : Type :=
| Return (shifts : list nat) (trace : list Q)
| Raise (e : error).

(** ** Equal arguments

    Two arrays are equal arguments when they hold equal numbers at every
    position, two states when their components are. *)
Definition same_values (xs ys : list Q) : Prop := Forall2 Qeq xs ys.

Definition same_state (s t : state) : Prop :=
  i s = i t /\ r1 s == r1 t /\
  r1_lower s == r1_lower t /\ r1_upper s == r1_upper t /\
  same_values (rsi s) (rsi t) /\
  regime_shift_indices s = regime_shift_indices t.

(** ** Concrete stand-ins for the two library calls, used in examples *)

(** A fixed quantile, -1.734 (the 5% point of Student's t with 18 degrees
    of freedom), whatever [p] and [df]. *)
Definition ppf_18 (p : Q) (df : Z) : Q := - (1734 # 1000).

(** Square root to six decimals, rounded down. *)
Definition sqrt_6 (x : Q) : Q :=
  Z.sqrt (Qnum x * 1000000000000 / Z.pos (Qden x)) # 1000000.

Definition plateau : list Q :=
  [0;1#10;0;-1#10;0;1#10;0;-1#10;0;1#10;0;-1#10;
   10;101#10;10;99#10;10;101#10;10;99#10;10;101#10;10;99#10].

(** The same series with every fraction written unreduced. *)
Definition plateau_unreduced : list Q :=
  map (fun x => (Qnum x * 2) # (Qden x * 2)) plateau.

(** A series shorter than the regime length it is scanned with. *)
Definition three : list Q := [1; 2; 3].

(** Fifty identical observations. *)
Definition sevens : list Q := repeat 7 50.

(** A quiet series with one outlier. *)
Definition spike : list Q :=
  [0; 1#10; 0; -1#10; 0; 1#10; 0; 5; 0; -1#10; 0; 1#10; 0; -1#10].

(** ** What the plots compute ([regime_plots.py])

    Both plotting functions cut the series [Z.values] (a series, or a frame
    of one column) into regimes at the shift indices and draw the mean of
    each; the second also counts, over a range of regime lengths, how often
    each position is returned as a shift.  The drawing calls themselves are
    not modelled, only the numbers handed to them. *)

(** The end of the regime starting at [shift_indices[idx]]: [-1], that is
    position [len - 1], when the start equals [shift_indices[-1]], else the
    next shift index. *)
Definition r_end (len : nat) (shift_indices : list nat) (idx : nat) : nat :=
  if (nth idx shift_indices 0 =? last shift_indices 0)%nat then (len - 1)%nat
  else nth (idx + 1) shift_indices 0%nat.

(** [Z.values[r_start:r_end]]. *)
Definition regime_values (values : list Q) (shift_indices : list nat) (idx : nat)
  : list Q :=
  slice values (nth idx shift_indices 0%nat)
        (r_end (length values) shift_indices idx).

(** The horizontal lines drawn: positions of both ends and the mean.  The
    first line, for the regime before the first shift, is drawn only when
    there is a shift. *)
Definition regime_lines (values : list Q) (shift_indices : list nat)
  : list (nat * nat * Q) :=
  match shift_indices with
  | [] => []
  | s0 :: _ =>
      (0%nat, s0, np_mean (slice values 0 s0))
      :: map (fun idx => (nth idx shift_indices 0%nat,
                          r_end (length values) shift_indices idx,
                          np_mean (regime_values values shift_indices idx)))
             (range 0 (length shift_indices))
  end.

(** [for i in range(len(shift_indices)): shift_counter[shift_indices[i]] += 1]. *)
Definition count_shifts (shift_indices : list nat) (shift_counter : list Q)
  : list Q :=
  fold_left (fun c idx =>
               let r_start := nth idx shift_indices 0%nat in
               set c r_start (get c r_start + 1))
            (range 0 (length shift_indices)) shift_counter.

(** The counter after the loop over [np.arange(l_min, l_max, 1)]; [run l]
    stands for the call [rodionov_regimes(Z.values.flatten(), l, p = p)]. *)
Definition sweep (run : nat -> list nat * list Q) (len l_min l_max : nat)
  : list Q :=
  fold_left (fun c l_length => count_shifts (fst (run l_length)) c)
            (range l_min l_max) (np_zeros len).

(** The regimes of a list of shift indices, one after the other: each
    runs to the next index, the last one to position [len - 1]. *)
Fixpoint segments (values : list Q) (xs : list nat) : list (list Q) :=
  match xs with
  | [] => []
  | x :: rest =>
      slice values x (match rest with
                      | [] => length values - 1
                      | y :: _ => y
                      end)%nat
      :: segments values rest
  end.

(** ** The call on a store of arrays

    [rodionov_regimes] once more, with the arrays where Python has them: in
    a store the call shares with its caller.  [data] is the address of the
    caller's array and [rsi] the address of the array the call allocates;
    every [data[k]] and [rsi[j]] is a read from the store and every
    [rsi[j] = v] a write to it.  The numbers [n], [avg_var] and [diff], the
    scan index, the regime mean with its bounds and the list of shift
    indices are locals of the call. *)

Definition store : Type := list (list Q).

(** The array at address [a]. *)
Definition array_at (h : store) (a : nat) : list Q := nth a h [].

(** The store with the array at address [a] replaced. *)
Fixpoint put (h : store) (a : nat) (arr : list Q) : store :=
  match h, a with
  | [], _ => []
  | _ :: h', O => arr :: h'
  | x :: h', S a' => x :: put h' a' arr
  end.

(** [a[k]]. *)
Definition load (h : store) (a k : nat) : Q := get (array_at h a) k.

(** [a[k] = v]. *)
Definition write (h : store) (a k : nat) (v : Q) : store :=
  put h a (set (array_at h a) k v).

(** A new array, at the first free address. *)
Definition allocate (h : store) (arr : list Q) : store * nat :=
  (h ++ [arr], length h).

(** The locals of the scan, and the store. *)
Record frame : Type := mkFrame {
  fr_i : nat;
  fr_r1 : Q;
  fr_r1_lower : Q;
  fr_r1_upper : Q;
  fr_shifts : list nat;
  mem : store
}.

(** The scan state a frame stands for, [rsi] read from its address. *)
Definition view (rsi_at : nat) (f : frame) : state :=
  {| i := fr_i f; r1 := fr_r1 f;
     r1_lower := fr_r1_lower f; r1_upper := fr_r1_upper f;
     rsi := array_at (mem f) rsi_at;
     regime_shift_indices := fr_shifts f |}.

Section OnStore.

(** The two addresses, and the locals computed before the loop. *)
Variables data_at rsi_at : nat.
Variables n l : nat.
Variables avg_var diff : Q.

Definition s_rsi_add (j : nat) (m test_r2 : Q) (k : nat) (h : store) : store :=
  if gtb (load h data_at j) m then
    write h rsi_at j
          (load h rsi_at j + (load h data_at k - test_r2) / (avg_var * of_nat l))
  else if ltb (load h data_at j) m then
    write h rsi_at j
          (load h rsi_at j + (test_r2 - load h data_at k) / (avg_var * of_nat l))
  else h.

Fixpoint s_rsi_loop (j : nat) (m test_r2 : Q) (ks : list nat) (h : store)
  : store :=
  match ks with
  | [] => h
  | k :: ks' =>
      let h' := s_rsi_add j m test_r2 k h in
      if ltb (load h' rsi_at j) 0 then write h' rsi_at j 0
      else s_rsi_loop j m test_r2 ks' h'
  end.

Definition s_loop_body (f : frame) : frame :=
  let h := mem f in
  if ltb (load h data_at (fr_i f)) (fr_r1_lower f)
     || gtb (load h data_at (fr_i f)) (fr_r1_upper f) then
    let j := fr_i f in
    let test_r2 := if ltb (load h data_at (fr_i f)) (fr_r1_lower f)
                   then fr_r1_lower f else fr_r1_upper f in
    let h' := s_rsi_loop j (fr_r1 f) test_r2
                         (range (j + 1) (Nat.min (j + l) n)) h in
    if gtb (load h' rsi_at j) 0 then
      let r2 := np_mean (slice (array_at h' data_at) j (Nat.min (j + l) n)) in
      {| fr_i := j + 1 + 1; fr_r1 := r2;
         fr_r1_lower := r2 - diff; fr_r1_upper := r2 + diff;
         fr_shifts := fr_shifts f ++ [j];
         mem := h' |}
    else
      {| fr_i := j + 1 + 1; fr_r1 := fr_r1 f;
         fr_r1_lower := fr_r1_lower f; fr_r1_upper := fr_r1_upper f;
         fr_shifts := fr_shifts f;
         mem := h' |}
  else
    {| fr_i := fr_i f + 1;
       fr_r1 := (inject_Z (Z.of_nat l - 1) * fr_r1 f + load h data_at (fr_i f))
                / of_nat l;
       fr_r1_lower := fr_r1_lower f; fr_r1_upper := fr_r1_upper f;
       fr_shifts := fr_shifts f;
       mem := h |}.

Fixpoint s_while_loop (fuel : nat) (f : frame) : frame :=
  match fuel with
  | O => f
  | S fuel' =>
      if (fr_i f <? n)%nat then s_while_loop fuel' (s_loop_body f) else f
  end.

End OnStore.

(** The whole call: the store it leaves, and the pair it returns, the
    shift indices and the address of the trace. *)
Definition call (t_ppf : Q -> Z -> Q) (np_sqrt : Q -> Q)
           (h : store) (data_at : nat) (l : nat) (p : Q)
  : store * (list nat * nat) :=
  let n := length (array_at h data_at) in
  let (h0, rsi_at) := allocate h (np_zeros n) in
  let t_stat := Qabs (t_ppf p (2 * Z.of_nat l - 2)%Z) in
  let avg_var :=
    np_mean (map (fun s => np_var (slice (array_at h0 data_at) s (s + l)))
                 (range 0 (n - l))) in
  let diff := t_stat * np_sqrt (2 * avg_var / of_nat l) in
  let r1 := np_mean (slice (array_at h0 data_at) 0 l) in
  let f := s_while_loop data_at rsi_at n l avg_var diff n
             {| fr_i := l + 1; fr_r1 := r1;
                fr_r1_lower := r1 - diff; fr_r1_upper := r1 + diff;
                fr_shifts := [];
                mem := h0 |} in
  (mem f, (fr_shifts f, rsi_at)).

(** A store with two arrays of the caller: some other array, and the
    series. *)
Definition caller_store : store := [[1; 2; 3]; plateau].

(** ** The function *)

Section Rodionov.

(** [scipy.stats.t.ppf(p, df)] and [np.sqrt]. *)
Variable t_ppf : Q -> Z -> Q.
Variable np_sqrt : Q -> Q.

(** The arguments of the call. *)
Variable data : list Q.
Variable l : nat.
Variable p : Q.

Definition n : nat := length data.

(** Step 2: the difference for statistically significant means. *)
Definition t_stat : Q := Qabs (t_ppf p (2 * Z.of_nat l - 2)).

Definition avg_var : Q :=
  np_mean (map (fun s => np_var (slice data s (s + l))) (range 0 (n - l))).

Definition diff : Q := t_stat * np_sqrt (2 * avg_var / of_nat l).

(** Step 3: the state on entry to the [while] loop. *)
Definition init : state :=
  let m := np_mean (slice data 0 l) in
  {| i := l + 1; r1 := m; r1_lower := m - diff; r1_upper := m + diff;
     rsi := np_zeros n; regime_shift_indices := [] |}.

(** Step 4: the test [data[i] < r1_lower or data[i] > r1_upper]. *)
Definition exceeds (st : state) : bool :=
  ltb (get data (i st)) (r1_lower st) || gtb (get data (i st)) (r1_upper st).

Definition choose_test_r2 (st : state) : Q :=
  if ltb (get data (i st)) (r1_lower st) then r1_lower st else r1_upper st.

(** One pass through the body of [for k in range(j + 1, min(j + l, n))]:
    the update of [rsi[j]], before the test of step 6. *)
Definition rsi_add (j : nat) (m test_r2 : Q) (k : nat) (a : list Q) : list Q :=
  if gtb (get data j) m then
    set a j (get a j + (get data k - test_r2) / (avg_var * of_nat l))
  else if ltb (get data j) m then
    set a j (get a j + (test_r2 - get data k) / (avg_var * of_nat l))
  else a.

(** Steps 5 and 6: the [for] loop with its [break]. *)
Fixpoint rsi_loop (j : nat) (m test_r2 : Q) (ks : list nat) (a : list Q)
  : list Q :=
  match ks with
  | [] => a
  | k :: ks' =>
      let a' := rsi_add j m test_r2 k a in
      if ltb (get a' j) 0 then set a' j 0
      else rsi_loop j m test_r2 ks' a'
  end.

(** The body of the [while] loop, including the final [i += 1]. *)
Definition loop_body (st : state) : state :=
  if exceeds st then
    let j := i st in
    let test_r2 := choose_test_r2 st in
    let a := rsi_loop j (r1 st) test_r2
                      (range (j + 1) (Nat.min (j + l) n)) (rsi st) in
    if gtb (get a j) 0 then
      let r2 := np_mean (slice data j (Nat.min (j + l) n)) in
      {| i := j + 1 + 1; r1 := r2;
         r1_lower := r2 - diff; r1_upper := r2 + diff;
         rsi := a;
         regime_shift_indices := regime_shift_indices st ++ [j] |}
    else
      {| i := j + 1 + 1; r1 := r1 st;
         r1_lower := r1_lower st; r1_upper := r1_upper st;
         rsi := a;
         regime_shift_indices := regime_shift_indices st |}
  else
    {| i := i st + 1;
       r1 := (inject_Z (Z.of_nat l - 1) * r1 st + get data (i st)) / of_nat l;
       r1_lower := r1_lower st; r1_upper := r1_upper st;
       rsi := rsi st;
       regime_shift_indices := regime_shift_indices st |}.

(** [while i < n: body], unrolled at most [fuel] times. *)
Fixpoint while_loop (fuel : nat) (st : state) : state :=
  match fuel with
  | O => st
  | S fuel' =>
      if (i st <? n)%nat then while_loop fuel' (loop_body st) else st
  end.

(** The state when the loop is left; [i] grows on every pass, so [n]
    passes are enough (see [while_loop_exits]). *)
Definition final : state := while_loop n init.

Definition rodionov_regimes : list nat * list Q :=
  (regime_shift_indices final, rsi final).

(** The call seen from outside: it returns, whatever the arguments. *)
Definition detect : outcome :=
  Return (fst rodionov_regimes) (snd rodionov_regimes).

(** ** The invariant of the scan

    What the [while] loop keeps true of its variables: the trace has the
    length of the input; the recorded indices are increasing, at least
    [l + 1], behind the scan index and not the last position; nothing
    has been written at or after the scan index; and the positive
    entries of the trace are the recorded indices. *)
Definition scan_inv (st : state) : Prop :=
  length (rsi st) = n /\
  (l + 1 <= i st)%nat /\
  StronglySorted lt (regime_shift_indices st) /\
  Forall (fun s => (l + 1 <= s /\ s < i st /\ s + 1 < n)%nat)
         (regime_shift_indices st) /\
  (forall k, (i st <= k)%nat -> get (rsi st) k = 0) /\
  (forall k, 0 <= get (rsi st) k /\
             (0 < get (rsi st) k <-> In k (regime_shift_indices st))).

(** ** The thresholds as the design document words them *)

(** Population variance of a window of [w] values: squared deviations
    from the window mean, summed and divided by [w] (not [w - 1]). *)
Definition population_variance (w : nat) (xs : list Q) : Q :=
  let mu := np_sum xs / of_nat w in
  np_sum (map (fun x => (x - mu) * (x - mu)) xs) / of_nat w.

(** The arithmetic mean, over the start offsets [0 .. n-l-1], of the
    population variance of the [l] values from that offset on. *)
Definition avg_var_spec : Q :=
  np_sum (map (fun s => population_variance l (firstn l (skipn s data)))
              (seq 0 (n - l)))
  / of_nat (n - l).

(** ** The regime shift index as the design document words it *)

(** What is added to the index of a candidate at [j] for the
    observation at [k]: for an upward deviation the normalised distance
    of [data[k]] above the crossed bound, for a downward one its
    distance below it. *)
Definition increment (j : nat) (m test_r2 : Q) (k : nat) : option Q :=
  if gtb (get data j) m then
    Some ((get data k - test_r2) / (avg_var * of_nat l))
  else if ltb (get data j) m then
    Some ((test_r2 - get data k) / (avg_var * of_nat l))
  else None.

(** The running index over the observations [ks]: once it is below zero
    after an increment it is zero for good and no further observation
    is looked at. *)
Fixpoint accumulate (j : nat) (m test_r2 : Q) (ks : list nat) (acc : Q) : Q :=
  match ks with
  | [] => acc
  | k :: ks' =>
      let acc' := match increment j m test_r2 k with
                  | Some d => acc + d
                  | None => acc
                  end in
      if ltb acc' 0 then 0 else accumulate j m test_r2 ks' acc'
  end.

(** ** A zero threshold

    With [diff] zero both bounds sit on the initial regime mean [c]; while
    no observation leaves them they stay there and nothing is written. *)
Definition quiet (c : Q) (st : state) : Prop :=
  r1_lower st == c /\ r1_upper st == c /\
  rsi st = np_zeros n /\ regime_shift_indices st = [].

(** ** Further invariants of the scan *)

(** After a candidate at [j] the scan resumes at [j + 2]: recorded indices
    are at least two apart and at least two behind the scan index. *)
Definition spaced (st : state) : Prop :=
  StronglySorted (fun a b => (a + 2 <= b)%nat) (regime_shift_indices st) /\
  Forall (fun s => (s + 2 <= i st)%nat) (regime_shift_indices st).

(** Each recorded index accounts for two positions of the scan. *)
Definition counted (st : state) : Prop :=
  (2 * length (regime_shift_indices st) + (l + 1)
   <= Nat.min (i st) (Nat.max n (l + 1)))%nat.

(** The regime mean lies between the two bounds. *)
Definition banded (st : state) : Prop :=
  r1_lower st <= r1 st /\ r1 st <= r1_upper st.

(** With a regime length of at most one, nothing is written or recorded. *)
Definition untouched (st : state) : Prop :=
  rsi st = np_zeros n /\ regime_shift_indices st = [].

(** The sum of the increments over [ks], without the test of step 6. *)
Definition running_total (j : nat) (m test_r2 : Q) (ks : list nat) (acc : Q) : Q :=
  fold_left (fun s k => match increment j m test_r2 k with
                        | Some d => s + d
                        | None => s
                        end) ks acc.

(** ** Arrays and comparisons *)

Lemma ltb_lt (a b : Q) : ltb a b = true <-> a < b.
Proof.
  unfold ltb. rewrite negb_true_iff, <- not_true_iff_false, Qle_bool_iff.
  split; [apply Qnot_le_lt | apply Qlt_not_le].
Qed.

Lemma gtb_lt (a b : Q) : gtb a b = true <-> b < a.
Proof. exact (ltb_lt b a). Qed.

Lemma ltb_ge (a b : Q) : ltb a b = false <-> b <= a.
Proof.
  unfold ltb. rewrite negb_false_iff. apply Qle_bool_iff.
Qed.

Lemma gtb_le (a b : Q) : gtb a b = false <-> a <= b.
Proof. exact (ltb_ge b a). Qed.

Lemma set_length (xs : list Q) (k : nat) (v : Q) :
  length (set xs k v) = length xs.
Proof.
  revert k; induction xs as [|x xs IH]; intros [|k]; simpl; auto.
Qed.

Lemma get_set_same (xs : list Q) (k : nat) (v : Q) :
  (k < length xs)%nat -> get (set xs k v) k = v.
Proof.
  unfold get. revert k; induction xs as [|x xs IH]; intros [|k]; simpl;
    intros H; try lia; auto.
  apply IH; lia.
Qed.

Lemma get_set_other (xs : list Q) (k m : nat) (v : Q) :
  k <> m -> get (set xs k v) m = get xs m.
Proof.
  unfold get. revert k m; induction xs as [|x xs IH]; intros [|k] [|m] H;
    simpl; auto; try congruence.
Qed.

Lemma get_zeros (m k : nat) : get (np_zeros m) k = 0.
Proof.
  unfold get, np_zeros. revert k; induction m as [|m IH]; intros [|k]; simpl; auto.
Qed.

Lemma zeros_length (m : nat) : length (np_zeros m) = m.
Proof. apply repeat_length. Qed.

Lemma slice_length (xs : list Q) (a b : nat) :
  (a <= b)%nat -> (b <= length xs)%nat -> length (slice xs a b) = (b - a)%nat.
Proof.
  intros Hab Hb. unfold slice. rewrite length_firstn, length_skipn. lia.
Qed.

Lemma in_range (a b k : nat) : In k (range a b) <-> (a <= k < b)%nat.
Proof. unfold range. rewrite in_seq. lia. Qed.

(** ** The accumulation loop on [rsi[j]] *)

Lemma rsi_add_length j m t k a : length (rsi_add j m t k a) = length a.
Proof.
  unfold rsi_add.
  destruct (gtb _ _); [apply set_length|].
  destruct (ltb _ _); [apply set_length|reflexivity].
Qed.

Lemma rsi_add_other j m t k a q :
  j <> q -> get (rsi_add j m t k a) q = get a q.
Proof.
  intros H. unfold rsi_add.
  destruct (gtb _ _); [now apply get_set_other|].
  destruct (ltb _ _); [now apply get_set_other|reflexivity].
Qed.

Lemma rsi_loop_length j m t ks a : length (rsi_loop j m t ks a) = length a.
Proof.
  revert a; induction ks as [|k ks IH]; intros a; simpl; [reflexivity|].
  destruct (ltb _ _).
  - now rewrite set_length, rsi_add_length.
  - now rewrite IH, rsi_add_length.
Qed.

(** The loop writes to no entry but [rsi[j]]. *)
Lemma rsi_loop_other j m t ks a q :
  j <> q -> get (rsi_loop j m t ks a) q = get a q.
Proof.
  intros H. revert a; induction ks as [|k ks IH]; intros a; simpl; [reflexivity|].
  destruct (ltb _ _).
  - now rewrite get_set_other, rsi_add_other.
  - now rewrite IH, rsi_add_other.
Qed.

(** Whichever way the loop is left, [rsi[j]] is not below zero. *)
Lemma rsi_loop_nonneg j m t ks a :
  (j < length a)%nat -> 0 <= get a j -> 0 <= get (rsi_loop j m t ks a) j.
Proof.
  revert a; induction ks as [|k ks IH]; intros a Hj Ha; simpl; [exact Ha|].
  destruct (ltb _ _) eqn:E.
  - rewrite get_set_same; [apply Qle_refl | now rewrite rsi_add_length].
  - apply IH; [now rewrite rsi_add_length | now apply ltb_ge].
Qed.

Lemma rsi_loop_nil_range j m t a :
  rsi_loop j m t (range (j + 1) (Nat.min (j + l) (j + 1))) a = a.
Proof.
  unfold range. replace (Nat.min (j + l) (j + 1) - (j + 1))%nat with 0%nat by lia.
  reflexivity.
Qed.


(** ** The scan *)

Lemma sorted_snoc (xs : list nat) (j : nat) :
  StronglySorted lt xs -> Forall (fun s => (s < j)%nat) xs ->
  StronglySorted lt (xs ++ [j]).
Proof.
  induction 1 as [|x xs Hs IH Hx]; intros Hall; simpl.
  - repeat constructor.
  - inversion Hall; subst. constructor; [now apply IH|].
    apply Forall_app; split; [exact Hx | now repeat constructor].
Qed.

Lemma init_inv : scan_inv init.
Proof.
  unfold scan_inv, init; simpl. repeat split.
  - apply zeros_length.
  - lia.
  - constructor.
  - constructor.
  - intros; apply get_zeros.
  - rewrite get_zeros; apply Qle_refl.
  - rewrite get_zeros. intros H; discriminate H.
  - intros [].
Qed.

(** A candidate at the last position has nothing ahead of it to add up. *)
Lemma last_candidate_window (j : nat) (m t : Q) (a : list Q) :
  (j + 1 = n)%nat ->
  rsi_loop j m t (range (j + 1) (Nat.min (j + l) n)) a = a.
Proof.
  intros H. rewrite <- H. apply rsi_loop_nil_range.
Qed.

Lemma loop_body_inv (st : state) :
  (i st < n)%nat -> scan_inv st -> scan_inv (loop_body st).
Proof.
  intros Hi (Hlen & Hlo & Hsort & Hall & Hzero & Hpos).
  unfold loop_body. destruct (exceeds st).
  - set (j := i st) in *.
    set (a := rsi_loop j (r1 st) (choose_test_r2 st)
                       (range (j + 1) (Nat.min (j + l) n)) (rsi st)).
    assert (Ha_len : length a = n) by (unfold a; now rewrite rsi_loop_length).
    assert (Ha_other : forall k, j <> k -> get a k = get (rsi st) k)
      by (intros; unfold a; now apply rsi_loop_other).
    assert (Ha_j : 0 <= get a j).
    { unfold a; apply rsi_loop_nonneg; [lia|]. rewrite Hzero by lia. apply Qle_refl. }
    assert (Hfresh : ~ In j (regime_shift_indices st)).
    { intros Hin. rewrite Forall_forall in Hall. apply Hall in Hin. lia. }
    destruct (gtb (get a j) 0) eqn:E; unfold scan_inv; simpl.
    + apply gtb_lt in E.
      assert (Hnl : (j + 1 < n)%nat).
      { destruct (Nat.eq_dec (j + 1) n) as [Heq|]; [|lia].
        unfold a in E. rewrite last_candidate_window in E by exact Heq.
        rewrite Hzero in E by lia. discriminate E. }
      repeat split; try assumption; try lia.
      * apply sorted_snoc; [assumption|].
        eapply Forall_impl; [|exact Hall]. simpl; intros; lia.
      * apply Forall_app; split.
        -- eapply Forall_impl; [|exact Hall]. simpl; intros; lia.
        -- repeat constructor; lia.
      * intros k Hk. rewrite Ha_other by lia. apply Hzero; lia.
      * destruct (Nat.eq_dec j k) as [<-|Hne]; [assumption|].
        rewrite Ha_other by assumption. apply Hpos.
      * destruct (Nat.eq_dec j k) as [<-|Hne].
        -- intros _. apply in_or_app; right; now left.
        -- rewrite Ha_other by assumption. intros H.
           apply in_or_app; left. now apply Hpos.
      * destruct (Nat.eq_dec j k) as [<-|Hne]; [intros _; assumption|].
        rewrite Ha_other by assumption. intros H.
        apply in_app_or in H. destruct H as [H|[H|[]]]; [now apply Hpos|congruence].
    + apply gtb_le in E.
      repeat split; try assumption; try lia.
      * eapply Forall_impl; [|exact Hall]. simpl; intros; lia.
      * intros k Hk. rewrite Ha_other by lia. apply Hzero; lia.
      * destruct (Nat.eq_dec j k) as [<-|Hne]; [assumption|].
        rewrite Ha_other by assumption. apply Hpos.
      * destruct (Nat.eq_dec j k) as [<-|Hne].
        -- intros H. exfalso. apply (Qlt_not_le _ _ H E).
        -- rewrite Ha_other by assumption. apply Hpos.
      * destruct (Nat.eq_dec j k) as [<-|Hne]; [intros H; contradiction|].
        rewrite Ha_other by assumption. apply Hpos.
  - unfold scan_inv; simpl. repeat split; try assumption; try lia.
    + eapply Forall_impl; [|exact Hall]. simpl; intros; lia.
    + intros k Hk. apply Hzero; lia.
    + apply Hpos.
    + apply Hpos.
    + apply Hpos.
Qed.

Lemma while_loop_inv (fuel : nat) (st : state) :
  scan_inv st -> scan_inv (while_loop fuel st).
Proof.
  revert st; induction fuel as [|fuel IH]; intros st H; simpl; [exact H|].
  destruct (i st <? n)%nat eqn:E; [|exact H].
  apply IH, loop_body_inv; [now apply Nat.ltb_lt | exact H].
Qed.

Lemma final_inv : scan_inv final.
Proof. apply while_loop_inv, init_inv. Qed.

(** Every pass moves the scan index forward. *)
Lemma loop_body_advances (st : state) : (i st < i (loop_body st))%nat.
Proof.
  unfold loop_body. destruct (exceeds st); [destruct (gtb _ _)|]; simpl; lia.
Qed.

(** With enough fuel the loop is left because its condition is false. *)
Lemma while_loop_exits_gen (fuel : nat) (st : state) :
  (n <= i st + fuel)%nat -> (n <= i (while_loop fuel st))%nat.
Proof.
  revert st; induction fuel as [|fuel IH]; intros st H; simpl; [lia|].
  destruct (i st <? n)%nat eqn:E; [|apply Nat.ltb_ge in E; lia].
  apply IH. pose proof (loop_body_advances st). lia.
Qed.

Lemma while_loop_exits : (n <= i final)%nat.
Proof. apply while_loop_exits_gen. unfold init; simpl. lia. Qed.

(** Once the condition is false, more fuel changes nothing. *)
Lemma while_loop_more_fuel (fuel extra : nat) (st : state) :
  (n <= i (while_loop fuel st))%nat ->
  while_loop (fuel + extra) st = while_loop fuel st.
Proof.
  revert st; induction fuel as [|fuel IH]; intros st H; simpl in *.
  - destruct extra; simpl; [reflexivity|].
    apply Nat.ltb_ge in H. now rewrite H.
  - destruct (i st <? n)%nat; [now apply IH | reflexivity].
Qed.


(** ** The two outputs *)

(** C1.  The RSI trace has the length of the input, none of its entries is
    negative, an entry is positive exactly when its position is one of the
    returned shift indices, and the entry at every other position equals
    zero.  This holds for all arguments, so in particular under the
    preconditions [1 <= l < n], [0 < p < 1] and non-zero average variance. *)
Theorem rsi_trace_marks_shifts :
  length (snd rodionov_regimes) = n /\
  forall k, (k < n)%nat ->
    0 <= get (snd rodionov_regimes) k /\
    (0 < get (snd rodionov_regimes) k <-> In k (fst rodionov_regimes)) /\
    (~ In k (fst rodionov_regimes) -> get (snd rodionov_regimes) k == 0).
Proof.
  destruct final_inv as (Hlen & _ & _ & _ & _ & Hpos).
  unfold rodionov_regimes; simpl. split; [exact Hlen|].
  intros k _. destruct (Hpos k) as [Hge Hiff].
  repeat split; try assumption; try apply Hiff.
  intros Hnot. apply Qle_antisym; [|exact Hge].
  apply Qnot_lt_le. intros H. apply Hnot, Hiff, H.
Qed.

(** C2.  The returned shift indices are strictly increasing, and every one
    of them lies between [l + 1] and [n - 1], both included. *)
Theorem shift_indices_increasing_in_range :
  StronglySorted lt (fst rodionov_regimes) /\
  Forall (fun j => (l + 1 <= j /\ j <= n - 1 /\ j < n)%nat)
         (fst rodionov_regimes).
Proof.
  destruct final_inv as (_ & _ & Hsort & Hall & _).
  unfold rodionov_regimes; simpl. split; [exact Hsort|].
  eapply Forall_impl; [|exact Hall]. simpl; intros; lia.
Qed.

(** C10.  The last position [n - 1] is never returned as a shift index: the
    range [j + 1 .. min (j + l) n - 1] a candidate at [j = n - 1] would
    add up over is empty, its RSI entry stays zero, and so every returned
    index lies between [l + 1] and [n - 2]. *)
Theorem last_index_never_a_shift :
  (forall j, (j + 1 = n)%nat -> range (j + 1) (Nat.min (j + l) n) = []) /\
  get (snd rodionov_regimes) (n - 1) = 0 /\
  ~ In (n - 1)%nat (fst rodionov_regimes) /\
  Forall (fun j => (l + 1 <= j /\ j + 2 <= n)%nat) (fst rodionov_regimes).
Proof.
  destruct final_inv as (_ & _ & _ & Hall & Hzero & Hpos).
  unfold rodionov_regimes; simpl.
  assert (Hnot : ~ In (n - 1)%nat (regime_shift_indices final)).
  { intros Hin. rewrite Forall_forall in Hall. apply Hall in Hin. lia. }
  repeat split.
  - intros j Hj. unfold range.
    replace (Nat.min (j + l) n - (j + 1))%nat with 0%nat by lia. reflexivity.
  - destruct (Hpos (n - 1)%nat) as [Hge Hiff].
    destruct (Nat.eq_dec n 0) as [Hn|Hn].
    + unfold get. rewrite nth_overflow; [reflexivity|].
      destruct final_inv as (Hlen & _). lia.
    + (* the entry was either never written or written by a rejected
         candidate; in both cases it is the stored zero *)
      clear Hge Hiff.
      revert Hnot. unfold final.
      assert (Hgen : forall fuel st, scan_inv st ->
                 ~ In (n - 1)%nat (regime_shift_indices (while_loop fuel st)) ->
                 (get (rsi st) (n - 1) = 0) ->
                 get (rsi (while_loop fuel st)) (n - 1) = 0).
      { induction fuel as [|fuel IH]; intros st Hinv Hni H0; simpl in *; [exact H0|].
        destruct (i st <? n)%nat eqn:E; [|exact H0].
        apply Nat.ltb_lt in E.
        apply IH; [now apply loop_body_inv | exact Hni |].
        unfold loop_body. destruct (exceeds st); [|exact H0].
        assert (Hr : get (rsi_loop (i st) (r1 st) (choose_test_r2 st)
                            (range (i st + 1) (Nat.min (i st + l) n)) (rsi st))
                         (n - 1) = 0).
        { destruct (Nat.eq_dec (i st) (n - 1)) as [Heq|Hne].
          - rewrite last_candidate_window by lia. exact H0.
          - rewrite rsi_loop_other by exact Hne. exact H0. }
        destruct (gtb _ _); simpl; exact Hr. }
      intros Hni. apply Hgen; [apply init_inv | exact Hni |].
      unfold init; simpl. apply get_zeros.
  - exact Hnot.
  - eapply Forall_impl; [|exact Hall]. simpl; intros; lia.
Qed.


(** ** The thresholds *)

Lemma abs_square (a : Q) : Qabs a * Qabs a = a * a.
Proof.
  destruct a as [u d]. unfold Qabs, Qmult; simpl. now rewrite Z.abs_square.
Qed.

(** [np.var] of a window of [w] values is their population variance. *)
Lemma np_var_population (w : nat) (xs : list Q) :
  length xs = w -> np_var xs = population_variance w xs.
Proof.
  intros <-. unfold np_var, population_variance, np_mean.
  rewrite length_map. f_equal. f_equal.
  apply map_ext. intros x. apply abs_square.
Qed.

(** Every window the variance is taken of is a full one. *)
Lemma window_full (s : nat) :
  (s < n - l)%nat -> length (slice data s (s + l)) = l.
Proof.
  intros H. rewrite slice_length; unfold n in *; lia.
Qed.

(** C3.  The thresholds do not depend on the state of the scan: [t_stat] is
    the absolute value of the t quantile at [p] with [2l - 2] degrees of
    freedom, [avg_var] is the mean over the start offsets [0 .. n-l-1] of
    the population variance (divisor [l]) of the window of [l] values
    starting there, and [diff] is [t_stat * sqrt (2 * avg_var / l)].  They
    are values of the run, not of the scan state: a pass of the loop either
    recomputes both bounds from this same [diff] or leaves them alone. *)
Theorem thresholds_as_specified :
  t_stat = Qabs (t_ppf p (2 * Z.of_nat l - 2)) /\
  avg_var = avg_var_spec /\
  diff = t_stat * np_sqrt (2 * avg_var_spec / of_nat l) /\
  (forall st,
     (r1_lower (loop_body st) = r1 (loop_body st) - diff /\
      r1_upper (loop_body st) = r1 (loop_body st) + diff) \/
     (r1_lower (loop_body st) = r1_lower st /\
      r1_upper (loop_body st) = r1_upper st)).
Proof.
  assert (Hav : avg_var = avg_var_spec).
  { unfold avg_var, avg_var_spec, np_mean, range.
    rewrite length_map, length_seq, Nat.sub_0_r. f_equal. f_equal.
    apply map_ext_in. intros s Hs. apply in_seq in Hs.
    rewrite np_var_population with (w := l) by (apply window_full; lia).
    unfold slice. now replace (s + l - s)%nat with l by lia. }
  repeat split.
  - exact Hav.
  - unfold diff. now rewrite Hav.
  - intros st. unfold loop_body.
    destruct (exceeds st); [destruct (gtb _ _)|]; simpl; auto.
Qed.


(** ** One candidate *)

Lemma rsi_add_same (j : nat) (m t : Q) (k : nat) (a : list Q) :
  (j < length a)%nat ->
  get (rsi_add j m t k a) j =
  match increment j m t k with Some d => get a j + d | None => get a j end.
Proof.
  intros Hj. unfold rsi_add, increment.
  destruct (gtb _ _); [now apply get_set_same|].
  destruct (ltb _ _); [now apply get_set_same|reflexivity].
Qed.

Lemma rsi_loop_accumulate (j : nat) (m t : Q) (ks : list nat) (a : list Q) :
  (j < length a)%nat ->
  get (rsi_loop j m t ks a) j = accumulate j m t ks (get a j).
Proof.
  revert a; induction ks as [|k ks IH]; intros a Hj; simpl; [reflexivity|].
  rewrite <- rsi_add_same by exact Hj.
  destruct (ltb _ _).
  - apply get_set_same. now rewrite rsi_add_length.
  - apply IH. now rewrite rsi_add_length.
Qed.

Lemma exceeds_cases (st : state) :
  exceeds st = true ->
  (get data (i st) < r1_lower st /\ choose_test_r2 st = r1_lower st) \/
  (~ get data (i st) < r1_lower st /\ r1_upper st < get data (i st) /\
   choose_test_r2 st = r1_upper st).
Proof.
  unfold exceeds, choose_test_r2. intros H.
  destruct (ltb (get data (i st)) (r1_lower st)) eqn:E.
  - left. split; [now apply ltb_lt | reflexivity].
  - right. simpl in H. apply gtb_lt in H. apply ltb_ge in E.
    repeat split; [now apply Qle_not_lt | exact H].
Qed.

(** The array left by a pass that found a candidate. *)
Lemma loop_body_rsi (st : state) :
  exceeds st = true ->
  rsi (loop_body st) =
  rsi_loop (i st) (r1 st) (choose_test_r2 st)
           (range (i st + 1) (Nat.min (i st + l) n)) (rsi st).
Proof.
  intros H. unfold loop_body. rewrite H. now destruct (gtb _ _).
Qed.

(** C4.  For a candidate at [j], [test_r2] is the bound that was crossed;
    the observations added up are those at [j+1 .. min (j+l) n - 1];
    [rsi[j]] grows by [(data[k] - test_r2) / (avg_var * l)] when
    [data[j] > r1] and by [(test_r2 - data[k]) / (avg_var * l)] when
    [data[j] < r1]; and as soon as it is below zero after an increment it
    is set to zero and the rest of the window is not looked at.  No other
    entry of the trace is written. *)
Theorem rsi_accumulation (st : state) :
  (i st < n)%nat -> length (rsi st) = n -> exceeds st = true ->
  let j := i st in
  let test_r2 := choose_test_r2 st in
  let window := range (j + 1) (Nat.min (j + l) n) in
  ((get data j < r1_lower st /\ test_r2 = r1_lower st) \/
   (~ get data j < r1_lower st /\ r1_upper st < get data j /\
    test_r2 = r1_upper st)) /\
  (forall k, In k window <-> (j + 1 <= k /\ k + 1 <= Nat.min (j + l) n)%nat) /\
  get (rsi (loop_body st)) j =
    accumulate j (r1 st) test_r2 window (get (rsi st) j) /\
  (forall q, q <> j -> get (rsi (loop_body st)) q = get (rsi st) q) /\
  (forall k ks a, (j < length a)%nat ->
     get (rsi_add j (r1 st) test_r2 k a) j < 0 ->
     rsi_loop j (r1 st) test_r2 (k :: ks) a =
     set (rsi_add j (r1 st) test_r2 k a) j 0).
Proof.
  intros Hi Hlen Hex; cbv zeta. repeat split.
  - now apply exceeds_cases.
  - apply in_range in H; lia.
  - apply in_range in H; lia.
  - intros [H1 H2]. apply in_range; lia.
  - rewrite loop_body_rsi by exact Hex. apply rsi_loop_accumulate. lia.
  - intros q Hq. rewrite loop_body_rsi by exact Hex.
    apply rsi_loop_other. congruence.
  - intros k ks a Hj Hneg. simpl. apply ltb_lt in Hneg. now rewrite Hneg.
Qed.

(** C5.  After the accumulation for a candidate at [j]: if [rsi[j] > 0],
    [j] is appended to the shift indices, [r1] becomes the mean of
    [data[j : min (j+l) n]] (a window cut short at the end of the series)
    and both bounds are recomputed from it with the same [diff]; if
    [rsi[j] == 0], nothing is appended and [r1] and its bounds stay as
    they were. *)
Theorem shift_confirmation (st : state) :
  (i st < n)%nat -> exceeds st = true ->
  let j := i st in
  let st' := loop_body st in
  (0 < get (rsi st') j ->
     regime_shift_indices st' = regime_shift_indices st ++ [j] /\
     r1 st' = np_mean (slice data j (Nat.min (j + l) n)) /\
     length (slice data j (Nat.min (j + l) n)) = Nat.min l (n - j) /\
     r1_lower st' = r1 st' - diff /\
     r1_upper st' = r1 st' + diff) /\
  (get (rsi st') j == 0 ->
     regime_shift_indices st' = regime_shift_indices st /\
     r1 st' = r1 st /\
     r1_lower st' = r1_lower st /\
     r1_upper st' = r1_upper st).
Proof.
  intros Hi Hex; cbv zeta. unfold loop_body. rewrite Hex.
  destruct (gtb _ _) eqn:E; simpl.
  - split.
    + intros _. repeat split.
      rewrite slice_length; unfold n in *; lia.
    + intros H0. apply gtb_lt in E. rewrite H0 in E. discriminate E.
  - split.
    + intros Hpos. apply gtb_le in E. exfalso. apply (Qlt_not_le _ _ Hpos E).
    + intros _. repeat split.
Qed.

(** An in-bounds observation is merged into [r1]; the bounds are left as
    they were computed from the earlier [r1]. *)
Lemma within_bounds_pass (st : state) :
  exceeds st = false ->
  r1 (loop_body st) =
    (inject_Z (Z.of_nat l - 1) * r1 st + get data (i st)) / of_nat l /\
  r1_lower (loop_body st) = r1_lower st /\
  r1_upper (loop_body st) = r1_upper st /\
  i (loop_body st) = (i st + 1)%nat.
Proof.
  intros H. unfold loop_body. rewrite H. simpl. repeat split.
Qed.


(** ** Arguments outside the stated preconditions *)

(** With [l >= n] the scan index starts past the end and the loop body
    never runs. *)
Lemma no_scan : (n <= l)%nat -> final = init.
Proof.
  intros H. unfold final.
  assert (Hstop : (i init <? n)%nat = false)
    by (apply Nat.ltb_ge; unfold init; simpl; lia).
  generalize n at 1. intros [|fuel]; cbn [while_loop]; [reflexivity | now rewrite Hstop].
Qed.

(** C7, as the code has it.  With [l >= n] the call raises nothing: it
    returns no shift index and a trace of [n] zeros. *)
Theorem short_series_returns :
  (n <= l)%nat -> detect = Return [] (np_zeros n).
Proof.
  intros H. unfold detect, rodionov_regimes. now rewrite (no_scan H).
Qed.

Lemma of_nat_succ (m : nat) : of_nat (S m) == of_nat m + 1.
Proof.
  unfold of_nat. rewrite Nat2Z.inj_succ. unfold Z.succ.
  now rewrite inject_Z_plus.
Qed.

Lemma of_nat_pos (m : nat) : (0 < m)%nat -> 0 < of_nat m.
Proof.
  intros H. unfold of_nat. change 0 with (inject_Z 0).
  rewrite <- Zlt_Qlt. lia.
Qed.

Section ZeroThreshold.

Hypothesis diff_zero : diff == 0.
Hypothesis scanned_equal :
  forall k, (l + 1 <= k < n)%nat -> get data k == np_mean (slice data 0 l).

Lemma init_quiet : quiet (np_mean (slice data 0 l)) init.
Proof.
  unfold quiet, init; simpl. rewrite diff_zero. repeat split; ring.
Qed.

Lemma loop_body_quiet (st : state) :
  (l + 1 <= i st < n)%nat ->
  quiet (np_mean (slice data 0 l)) st ->
  quiet (np_mean (slice data 0 l)) (loop_body st).
Proof.
  intros Hi (Hlo & Hup & Hrsi & Hsh).
  pose proof (scanned_equal (i st) Hi) as Hd.
  assert (Hex : exceeds st = false).
  { unfold exceeds. apply orb_false_iff; split.
    - apply ltb_ge. rewrite Hlo, Hd. apply Qle_refl.
    - apply gtb_le. rewrite Hup, Hd. apply Qle_refl. }
  unfold loop_body. rewrite Hex. unfold quiet; simpl. repeat split; assumption.
Qed.

Lemma while_loop_quiet (fuel : nat) (st : state) :
  (l + 1 <= i st)%nat ->
  quiet (np_mean (slice data 0 l)) st ->
  quiet (np_mean (slice data 0 l)) (while_loop fuel st).
Proof.
  revert st; induction fuel as [|fuel IH]; intros st Hi H; simpl; [exact H|].
  destruct (i st <? n)%nat eqn:E; [|exact H]. apply Nat.ltb_lt in E.
  apply IH.
  - pose proof (loop_body_advances st). lia.
  - apply loop_body_quiet; [lia | exact H].
Qed.

(** C8, as the code has it.  When the computed threshold [diff] is zero
    and every scanned observation equals the initial regime mean
    [mean(data[0:l])] (fifty values 7 with [l = 10], whose average variance
    is zero, are such an input), the call raises nothing: no observation is
    outside the bounds, the division by [avg_var * l] is never reached, and
    the result is no shift index and a trace of [n] zeros. *)
Theorem zero_threshold_returns : detect = Return [] (np_zeros n).
Proof.
  destruct (while_loop_quiet n init) as (_ & _ & Hrsi & Hsh).
  - unfold init; simpl. lia.
  - apply init_quiet.
  - unfold detect, rodionov_regimes, final; simpl. now rewrite Hrsi, Hsh.
Qed.

End ZeroThreshold.

(** ** More on the scan *)

Lemma while_loop_keeps (P : state -> Prop) :
  (forall st, (i st < n)%nat -> scan_inv st -> P st -> P (loop_body st)) ->
  forall fuel st, scan_inv st -> P st -> P (while_loop fuel st).
Proof.
  intros Hstep. induction fuel as [|fuel IH]; intros st Hinv HP; simpl; [exact HP|].
  destruct (i st <? n)%nat eqn:E; [|exact HP]. apply Nat.ltb_lt in E.
  apply IH; [now apply loop_body_inv | now apply Hstep].
Qed.

(** X1.  The loop is left with its condition false after at most
    [n - (l + 1)] passes, and the state it is left in is the one the
    function returns from: unrolling further changes nothing. *)
Theorem scan_terminates :
  (n <= i (while_loop (n - (l + 1)) init))%nat /\
  forall fuel, (n - (l + 1) <= fuel)%nat -> while_loop fuel init = final.
Proof.
  assert (Hexit : (n <= i (while_loop (n - (l + 1)) init))%nat).
  { apply while_loop_exits_gen. unfold init; simpl. lia. }
  split; [exact Hexit|].
  assert (Hfrom : forall fuel, (n - (l + 1) <= fuel)%nat ->
                    while_loop fuel init = while_loop (n - (l + 1)) init).
  { intros fuel Hf.
    replace fuel with ((n - (l + 1)) + (fuel - (n - (l + 1))))%nat by lia.
    now apply while_loop_more_fuel. }
  intros fuel Hf. unfold final.
  rewrite (Hfrom fuel Hf). symmetry. apply Hfrom. lia.
Qed.

Lemma sorted_snoc_gap (xs : list nat) (j : nat) :
  StronglySorted (fun a b => (a + 2 <= b)%nat) xs ->
  Forall (fun s => (s + 2 <= j)%nat) xs ->
  StronglySorted (fun a b => (a + 2 <= b)%nat) (xs ++ [j]).
Proof.
  induction 1 as [|x xs Hs IH Hx]; intros Hall; simpl.
  - repeat constructor.
  - inversion Hall; subst. constructor; [now apply IH|].
    apply Forall_app; split; [exact Hx | now repeat constructor].
Qed.

Lemma loop_body_spaced (st : state) : spaced st -> spaced (loop_body st).
Proof.
  intros [Hs Hall]. unfold loop_body.
  destruct (exceeds st); [destruct (gtb _ _)|]; unfold spaced; simpl; split;
    try assumption;
    try (eapply Forall_impl; [|exact Hall]; simpl; intros; lia).
  - now apply sorted_snoc_gap.
  - apply Forall_app; split.
    + eapply Forall_impl; [|exact Hall]. simpl; intros; lia.
    + repeat constructor. lia.
Qed.

(** X2.  Two returned shift indices are never neighbours: each is at least
    two positions after the one before it, because the scan resumes at
    [j + 2] after a candidate at [j]. *)
Theorem shift_indices_two_apart :
  StronglySorted (fun a b => (a + 2 <= b)%nat) (fst rodionov_regimes).
Proof.
  unfold rodionov_regimes, final; simpl.
  apply (while_loop_keeps spaced).
  - intros st _ _. apply loop_body_spaced.
  - apply init_inv.
  - split; constructor.
Qed.

Lemma loop_body_counted (st : state) :
  (i st < n)%nat -> scan_inv st -> counted st -> counted (loop_body st).
Proof.
  intros Hi Hinv Hc.
  pose proof (loop_body_inv st Hi Hinv) as (_ & _ & _ & Hall & _).
  revert Hall. unfold counted in *. unfold loop_body.
  destruct (exceeds st); [destruct (gtb _ _)|]; simpl; intros Hall; try lia.
  apply Forall_app in Hall. destruct Hall as [_ Hj].
  inversion Hj as [|? ? Hj' _]; subst. rewrite length_app; simpl. lia.
Qed.

(** X3.  At most [(n - l - 1) / 2] shifts are returned. *)
Theorem shift_count_bounded :
  (2 * length (fst rodionov_regimes) <= n - (l + 1))%nat.
Proof.
  assert (H : counted final).
  { unfold final. apply (while_loop_keeps counted).
    - apply loop_body_counted.
    - apply init_inv.
    - unfold counted, init; simpl. lia. }
  unfold counted in H. unfold rodionov_regimes; simpl. lia.
Qed.

Lemma loop_body_untouched (st : state) :
  (l <= 1)%nat -> (i st < n)%nat -> untouched st -> untouched (loop_body st).
Proof.
  intros Hl Hi [Hrsi Hsh]. unfold loop_body.
  destruct (exceeds st); [|now split].
  assert (Hw : range (i st + 1) (Nat.min (i st + l) n) = []).
  { unfold range.
    replace (Nat.min (i st + l) n - (i st + 1))%nat with 0%nat by lia.
    reflexivity. }
  rewrite Hw. simpl rsi_loop. rewrite Hrsi, get_zeros.
  change (gtb 0 0) with false. now split.
Qed.

(** X5.  With [l <= 1] the window [j+1 .. min (j+l) n - 1] of every
    candidate is empty, so no shift is ever confirmed: the function returns
    no index and a trace of zeros, whatever the data. *)
Theorem unit_length_finds_nothing :
  (l <= 1)%nat -> rodionov_regimes = ([], np_zeros n).
Proof.
  intros Hl.
  assert (H : untouched final).
  { unfold final. apply (while_loop_keeps untouched).
    - intros st Hi _. now apply loop_body_untouched.
    - apply init_inv.
    - now split. }
  destruct H as [Hrsi Hsh]. unfold rodionov_regimes. now rewrite Hrsi, Hsh.
Qed.

(** *** The regime mean stays inside its bounds *)

Section Band.

Hypothesis l_pos : (1 <= l)%nat.
Hypothesis sqrt_nonneg : forall x, 0 <= np_sqrt x.

Lemma diff_nonneg : 0 <= diff.
Proof.
  unfold diff, t_stat. apply Qmult_le_0_compat; [apply Qabs_nonneg | apply sqrt_nonneg].
Qed.

Lemma init_banded : banded init.
Proof.
  pose proof diff_nonneg as Hd. unfold banded, init; simpl. split; lra.
Qed.

Lemma loop_body_banded (st : state) : banded st -> banded (loop_body st).
Proof.
  intros [Hlo Hup]. pose proof diff_nonneg as Hd. unfold loop_body.
  destruct (exceeds st) eqn:Hex; [destruct (gtb _ _)|];
    unfold banded; simpl; try (split; lra).
  unfold exceeds in Hex. apply orb_false_iff in Hex. destruct Hex as [H1 H2].
  apply ltb_ge in H1. apply gtb_le in H2.
  assert (Hpos : 0 < of_nat l) by (apply of_nat_pos; lia).
  assert (Hl1 : inject_Z (Z.of_nat l - 1) == of_nat l - 1).
  { unfold of_nat. rewrite <- Z.add_opp_r, inject_Z_plus. simpl inject_Z. ring. }
  rewrite Hl1.
  assert (Hge : 0 <= of_nat l - 1).
  { rewrite <- Hl1. change 0 with (inject_Z 0). rewrite <- Zle_Qle. lia. }
  split.
  - apply Qle_shift_div_l; [exact Hpos|]. nra.
  - apply Qle_shift_div_r; [exact Hpos|]. nra.
Qed.

Lemma reachable_banded (fuel : nat) : banded (while_loop fuel init).
Proof.
  apply (while_loop_keeps banded).
  - intros st _ _. apply loop_body_banded.
  - apply init_inv.
  - apply init_banded.
Qed.

(** *** The verdict on a candidate *)

Lemma loop_body_verdict (st : state) :
  exceeds st = true ->
  (0 < get (rsi (loop_body st)) (i st) ->
   regime_shift_indices (loop_body st) = regime_shift_indices st ++ [i st] /\
   r1 (loop_body st) = np_mean (slice data (i st) (Nat.min (i st + l) n))) /\
  (get (rsi (loop_body st)) (i st) = 0 ->
   regime_shift_indices (loop_body st) = regime_shift_indices st /\
   r1 (loop_body st) = r1 st).
Proof.
  intros Hex. unfold loop_body. rewrite Hex.
  destruct (gtb _ _) eqn:E; simpl.
  - split; [now split|]. intros H0. rewrite H0 in E. discriminate E.
  - split; [|now split]. intros Hpos. apply gtb_le in E.
    exfalso. apply (Qlt_not_le _ _ Hpos E).
Qed.

Lemma window_nonempty (j : nat) :
  (2 <= l)%nat -> (j + 1 < n)%nat ->
  range (j + 1) (Nat.min (j + l) n) =
  (j + 1)%nat :: range (j + 2) (Nat.min (j + l) n).
Proof.
  intros Hl Hj. unfold range.
  replace (Nat.min (j + l) n - (j + 1))%nat
    with (S (Nat.min (j + l) n - (j + 2))) by lia.
  simpl. do 2 f_equal. lia.
Qed.

(** Where the candidate stands: which bound was crossed gives the bound
    used and the sign of the increments. *)
Lemma candidate_increment (fuel : nat) (k : nat) :
  let st := while_loop fuel init in
  (r1_upper st < get data (i st) ->
   exceeds st = true /\ choose_test_r2 st = r1_upper st /\
   increment (i st) (r1 st) (r1_upper st) k =
   Some ((get data k - r1_upper st) / (avg_var * of_nat l))) /\
  (get data (i st) < r1_lower st ->
   exceeds st = true /\ choose_test_r2 st = r1_lower st /\
   increment (i st) (r1 st) (r1_lower st) k =
   Some ((r1_lower st - get data k) / (avg_var * of_nat l))).
Proof.
  cbv zeta. destruct (reachable_banded fuel) as [Hlo Hup].
  set (st := while_loop fuel init) in *. split; intros H.
  - assert (Hnl : ltb (get data (i st)) (r1_lower st) = false)
      by (apply ltb_ge; lra).
    assert (Hg : gtb (get data (i st)) (r1 st) = true) by (apply gtb_lt; lra).
    unfold exceeds, choose_test_r2, increment. rewrite Hnl, Hg.
    apply gtb_lt in H. rewrite H. repeat split.
  - assert (Hlt : ltb (get data (i st)) (r1_lower st) = true) by now apply ltb_lt.
    assert (Hg : gtb (get data (i st)) (r1 st) = false) by (apply gtb_le; lra).
    assert (Hl : ltb (get data (i st)) (r1 st) = true) by (apply ltb_lt; lra).
    unfold exceeds, choose_test_r2, increment. rewrite Hlt, Hg, Hl.
    repeat split.
Qed.

Lemma scale_pos : (1 <= l)%nat -> 0 < avg_var -> 0 < avg_var * of_nat l.
Proof.
  intros Hl Hv. pose proof (of_nat_pos l Hl) as HL.
  apply Qmult_lt_0_compat; assumption.
Qed.

Lemma quotient_neg (a c : Q) : 0 < c -> a < 0 -> a / c < 0.
Proof.
  intros Hc Ha. apply Qlt_shift_div_r; [exact Hc|]. lra.
Qed.

Lemma quotient_pos (a c : Q) : 0 < c -> 0 < a -> 0 < a / c.
Proof.
  intros Hc Ha. apply Qlt_shift_div_l; [exact Hc|]. lra.
Qed.

(** X10.  A candidate whose next observation is already back on the old
    regime's side of the crossed bound is rejected at once: with [l >= 2],
    a positive average variance and [j + 1 < n], the first increment is
    negative, [rsi[j]] is set to zero, no shift is recorded and [r1] is
    kept. *)
Theorem spike_rejected (fuel : nat) :
  let st := while_loop fuel init in
  let j := i st in
  (2 <= l)%nat -> (j + 1 < n)%nat -> 0 < avg_var ->
  (r1_upper st < get data j /\ get data (j + 1) < r1_upper st) \/
  (get data j < r1_lower st /\ r1_lower st < get data (j + 1)) ->
  get (rsi (loop_body st)) j = 0 /\
  regime_shift_indices (loop_body st) = regime_shift_indices st /\
  r1 (loop_body st) = r1 st.
Proof.
  cbv zeta. intros Hl Hj Hv Hcase.
  pose proof (while_loop_inv fuel init init_inv) as (Hlen & _ & _ & _ & Hzero & _).
  pose proof (candidate_increment fuel (i (while_loop fuel init) + 1)) as Hinc.
  cbv zeta in Hinc. set (st := while_loop fuel init) in *.
  pose proof (scale_pos l_pos Hv) as Hscale.
  assert (Hex : exceeds st = true /\ get (rsi (loop_body st)) (i st) = 0).
  { destruct Hcase as [[Hout Hback]|[Hout Hback]].
    - destruct (proj1 Hinc Hout) as (Hex & Ht & Hi). split; [exact Hex|].
      rewrite loop_body_rsi, rsi_loop_accumulate, window_nonempty, Ht
        by (assumption || lia).
      simpl accumulate. rewrite Hi, Hzero by lia.
      replace (ltb _ 0) with true; [reflexivity|].
      symmetry. apply ltb_lt.
      assert (Hq := quotient_neg (get data (i st + 1) - r1_upper st) _ Hscale).
      lra.
    - destruct (proj2 Hinc Hout) as (Hex & Ht & Hi). split; [exact Hex|].
      rewrite loop_body_rsi, rsi_loop_accumulate, window_nonempty, Ht
        by (assumption || lia).
      simpl accumulate. rewrite Hi, Hzero by lia.
      replace (ltb _ 0) with true; [reflexivity|].
      symmetry. apply ltb_lt.
      assert (Hq := quotient_neg (r1_lower st - get data (i st + 1)) _ Hscale).
      lra. }
  destruct Hex as [Hex H0]. split; [exact H0|].
  exact (proj2 (loop_body_verdict st Hex) H0).
Qed.

Lemma accumulate_grows (j : nat) (m t : Q) (ks : list nat) (acc : Q) :
  (forall k, In k ks -> exists d, increment j m t k = Some d /\ 0 < d) ->
  0 <= acc ->
  acc <= accumulate j m t ks acc /\ (ks <> [] -> acc < accumulate j m t ks acc).
Proof.
  revert acc; induction ks as [|k ks IH]; intros acc Hinc Hacc.
  - simpl. split; [apply Qle_refl | congruence].
  - destruct (Hinc k (or_introl eq_refl)) as (d & Hd & Hpos).
    simpl accumulate. rewrite Hd.
    replace (ltb (acc + d) 0) with false by (symmetry; apply ltb_ge; lra).
    destruct (IH (acc + d)) as [Hle _];
      [intros k' Hk'; apply Hinc; now right | lra |].
    split; [lra | intros _; lra].
Qed.

(** X11.  A candidate all of whose window lies beyond the crossed bound is
    confirmed: with [l >= 2], a positive average variance and [j + 1 < n],
    every increment is positive, [rsi[j]] ends positive, [j] is recorded
    and [r1] becomes the mean of [data[j : min (j+l) n]]. *)
Theorem sustained_shift_confirmed (fuel : nat) :
  let st := while_loop fuel init in
  let j := i st in
  (2 <= l)%nat -> (j + 1 < n)%nat -> 0 < avg_var ->
  (r1_upper st < get data j /\
   forall k, (j + 1 <= k < Nat.min (j + l) n)%nat -> r1_upper st < get data k) \/
  (get data j < r1_lower st /\
   forall k, (j + 1 <= k < Nat.min (j + l) n)%nat -> get data k < r1_lower st) ->
  0 < get (rsi (loop_body st)) j /\
  regime_shift_indices (loop_body st) = regime_shift_indices st ++ [j] /\
  r1 (loop_body st) = np_mean (slice data j (Nat.min (j + l) n)).
Proof.
  cbv zeta. intros Hl Hj Hv Hcase.
  pose proof (while_loop_inv fuel init init_inv) as (Hlen & _ & _ & _ & Hzero & _).
  pose proof (fun k => candidate_increment fuel k) as Hinc.
  cbv zeta in Hinc. set (st := while_loop fuel init) in *.
  pose proof (scale_pos l_pos Hv) as Hscale.
  assert (Hne : range (i st + 1) (Nat.min (i st + l) n) <> [])
    by (rewrite window_nonempty by assumption; discriminate).
  assert (Hex : exceeds st = true /\ 0 < get (rsi (loop_body st)) (i st)).
  { destruct Hcase as [[Hout Hstay]|[Hout Hstay]].
    - destruct (proj1 (Hinc 0%nat) Hout) as (Hex & Ht & _). split; [exact Hex|].
      rewrite loop_body_rsi, rsi_loop_accumulate, Ht by (assumption || lia).
      rewrite Hzero by lia.
      apply accumulate_grows; [|apply Qle_refl|exact Hne].
      intros k Hk. apply in_range in Hk.
      destruct (proj1 (Hinc k) Hout) as (_ & _ & Hi).
      eexists; split; [exact Hi|].
      apply quotient_pos; [exact Hscale|]. specialize (Hstay k Hk). lra.
    - destruct (proj2 (Hinc 0%nat) Hout) as (Hex & Ht & _). split; [exact Hex|].
      rewrite loop_body_rsi, rsi_loop_accumulate, Ht by (assumption || lia).
      rewrite Hzero by lia.
      apply accumulate_grows; [|apply Qle_refl|exact Hne].
      intros k Hk. apply in_range in Hk.
      destruct (proj2 (Hinc k) Hout) as (_ & _ & Hi).
      eexists; split; [exact Hi|].
      apply quotient_pos; [exact Hscale|]. specialize (Hstay k Hk). lra. }
  destruct Hex as [Hex Hpos]. split; [exact Hpos|].
  exact (proj1 (loop_body_verdict st Hex) Hpos).
Qed.

End Band.

(** *** A confirmed index *)

Lemma accumulate_positive (j : nat) (m t : Q) (ks : list nat) (acc : Q) :
  0 < accumulate j m t ks acc ->
  accumulate j m t ks acc = running_total j m t ks acc /\
  forall q, (1 <= q <= length ks)%nat ->
            0 <= running_total j m t (firstn q ks) acc.
Proof.
  revert acc; induction ks as [|k ks IH]; intros acc Hpos.
  - split; [reflexivity|]. simpl. intros q Hq. lia.
  - simpl in Hpos. simpl accumulate.
    destruct (ltb _ 0) eqn:E; [discriminate Hpos|].
    destruct (IH _ Hpos) as [Heq Hpre]. split; [exact Heq|].
    intros [|[|q]] Hq; simpl in Hq; try lia.
    + simpl. now apply ltb_ge.
    + change (firstn (S (S q)) (k :: ks)) with (k :: firstn (S q) ks).
      apply Hpre. lia.
Qed.

(** X6.  When the candidate at [j] is confirmed, no test of step 6 ever
    fired for it: [rsi[j]] is the plain sum of the increments over the whole
    window [j+1 .. min (j+l) n - 1], and the sum over every initial part of
    the window is not negative. *)
Theorem confirmed_index_is_window_sum (st : state) :
  (i st < n)%nat -> length (rsi st) = n -> exceeds st = true ->
  let j := i st in
  let window := range (j + 1) (Nat.min (j + l) n) in
  0 < get (rsi (loop_body st)) j ->
  get (rsi (loop_body st)) j =
    running_total j (r1 st) (choose_test_r2 st) window (get (rsi st) j) /\
  forall q, (1 <= q <= length window)%nat ->
    0 <= running_total j (r1 st) (choose_test_r2 st) (firstn q window)
                       (get (rsi st) j).
Proof.
  intros Hi Hlen Hex; cbv zeta.
  rewrite loop_body_rsi by exact Hex.
  rewrite rsi_loop_accumulate by lia.
  apply accumulate_positive.
Qed.

End Rodionov.

(** ** Two calls on equal arguments *)

Lemma ltb_ext (a a' b b' : Q) : a == a' -> b == b' -> ltb a b = ltb a' b'.
Proof. intros Ha Hb. unfold ltb. now rewrite Ha, Hb. Qed.

Lemma gtb_ext (a a' b b' : Q) : a == a' -> b == b' -> gtb a b = gtb a' b'.
Proof. intros Ha Hb. unfold gtb. now rewrite Ha, Hb. Qed.

Lemma same_values_refl (xs : list Q) : same_values xs xs.
Proof. induction xs; constructor; [reflexivity | assumption]. Qed.

Lemma get_ext (xs ys : list Q) (k : nat) :
  same_values xs ys -> get xs k == get ys k.
Proof.
  unfold get. intros H. revert k.
  induction H as [|x y xs ys Hxy _ IH]; intros [|k]; simpl;
    try reflexivity; [exact Hxy | apply IH].
Qed.

Lemma set_ext (xs ys : list Q) (k : nat) (v w : Q) :
  same_values xs ys -> v == w -> same_values (set xs k v) (set ys k w).
Proof.
  intros H Hvw. revert k.
  induction H as [|x y xs ys Hxy Hrest IH]; intros [|k]; simpl;
    constructor; try assumption. apply IH.
Qed.

Lemma slice_ext (xs ys : list Q) (a b : nat) :
  same_values xs ys -> same_values (slice xs a b) (slice ys a b).
Proof.
  unfold slice. intros H.
  assert (Hskip : same_values (skipn a xs) (skipn a ys)).
  { revert a. induction H as [|x y xs' ys' Hxy Hrest IH]; intros [|a]; simpl;
      try constructor; try assumption. apply IH. }
  generalize (b - a)%nat as m. revert Hskip.
  generalize (skipn a xs) (skipn a ys). clear.
  intros us vs H.
  induction H as [|x y xs' ys' Hxy Hrest IH]; intros [|m]; simpl;
    constructor; try assumption. apply IH.
Qed.

Lemma fold_plus_ext (xs ys : list Q) (a b : Q) :
  same_values xs ys -> a == b -> fold_left Qplus xs a == fold_left Qplus ys b.
Proof.
  intros H. revert a b.
  induction H as [|x y xs ys Hxy _ IH]; intros a b Hab; simpl; [exact Hab|].
  apply IH. now rewrite Hab, Hxy.
Qed.

Lemma np_mean_ext (xs ys : list Q) :
  same_values xs ys -> np_mean xs == np_mean ys.
Proof.
  intros H. unfold np_mean, np_sum.
  rewrite (Forall2_length H), (fold_plus_ext xs ys 0 0 H) by reflexivity.
  reflexivity.
Qed.

Lemma map_ext_values (A : Type) (f g : A -> Q) (xs : list A) :
  (forall x, f x == g x) -> same_values (map f xs) (map g xs).
Proof. intros H. induction xs; simpl; constructor; [apply H | assumption]. Qed.

Lemma np_var_ext (xs ys : list Q) :
  same_values xs ys -> np_var xs == np_var ys.
Proof.
  intros H. unfold np_var. apply np_mean_ext.
  pose proof (np_mean_ext xs ys H) as Hm. revert Hm.
  generalize (np_mean xs) (np_mean ys). intros m m' Hm.
  induction H as [|x y xs ys Hxy _ IH]; cbn [map]; constructor; [|exact IH].
  now rewrite Hxy, Hm.
Qed.

Section Determinism.

Variable t_ppf : Q -> Z -> Q.
Variable np_sqrt : Q -> Q.

(** The two library calls are functions of the value of their argument. *)
Hypothesis t_ppf_ext : forall q q' df, q == q' -> t_ppf q df == t_ppf q' df.
Hypothesis np_sqrt_ext : forall x x', x == x' -> np_sqrt x == np_sqrt x'.

Variables data data' : list Q.
Variable l : nat.
Variables p p' : Q.

Hypothesis data_same : same_values data data'.
Hypothesis p_same : p == p'.

Lemma n_ext : n data = n data'.
Proof. exact (Forall2_length data_same). Qed.

Lemma avg_var_ext : avg_var data l == avg_var data' l.
Proof.
  unfold avg_var. rewrite n_ext. apply np_mean_ext, map_ext_values.
  intros s. apply np_var_ext, slice_ext, data_same.
Qed.

Lemma diff_ext :
  diff t_ppf np_sqrt data l p == diff t_ppf np_sqrt data' l p'.
Proof.
  unfold diff, t_stat. rewrite (t_ppf_ext p p' _ p_same).
  rewrite (np_sqrt_ext (2 * avg_var data l / of_nat l)
                       (2 * avg_var data' l / of_nat l)).
  - reflexivity.
  - now rewrite avg_var_ext.
Qed.

Lemma init_ext :
  same_state (init t_ppf np_sqrt data l p) (init t_ppf np_sqrt data' l p').
Proof.
  unfold same_state, init; simpl.
  pose proof (np_mean_ext _ _ (slice_ext data data' 0 l data_same)) as Hm.
  rewrite n_ext, Hm, diff_ext.
  repeat split; try reflexivity. apply same_values_refl.
Qed.

Lemma rsi_add_ext (j : nat) (m m' t t' : Q) (k : nat) (a a' : list Q) :
  m == m' -> t == t' -> same_values a a' ->
  same_values (rsi_add data l j m t k a) (rsi_add data' l j m' t' k a').
Proof.
  intros Hm Ht Ha. unfold rsi_add.
  pose proof (get_ext data data' j data_same) as Hj.
  pose proof (get_ext data data' k data_same) as Hk.
  pose proof (get_ext a a' j Ha) as Haj.
  rewrite (gtb_ext _ _ _ _ Hj Hm), (ltb_ext _ _ _ _ Hj Hm).
  destruct (gtb _ _); [|destruct (ltb _ _)]; try exact Ha;
    apply set_ext; try exact Ha; now rewrite Haj, Hk, Ht, avg_var_ext.
Qed.

Lemma rsi_loop_ext (j : nat) (m m' t t' : Q) (ks : list nat) (a a' : list Q) :
  m == m' -> t == t' -> same_values a a' ->
  same_values (rsi_loop data l j m t ks a) (rsi_loop data' l j m' t' ks a').
Proof.
  intros Hm Ht. revert a a'.
  induction ks as [|k ks IH]; intros a a' Ha; simpl; [exact Ha|].
  pose proof (rsi_add_ext j m m' t t' k a a' Hm Ht Ha) as Hadd.
  rewrite (ltb_ext _ (get (rsi_add data' l j m' t' k a') j) 0 0)
    by (try reflexivity; now apply get_ext).
  destruct (ltb _ _); [apply set_ext; [exact Hadd | reflexivity] | now apply IH].
Qed.

Lemma exceeds_ext (s t : state) :
  same_state s t -> exceeds data s = exceeds data' t.
Proof.
  intros (Hi & _ & Hlo & Hup & _).
  pose proof (get_ext data data' (i t) data_same) as Hd.
  unfold exceeds. rewrite Hi.
  now rewrite (ltb_ext _ _ _ _ Hd Hlo), (gtb_ext _ _ _ _ Hd Hup).
Qed.

Lemma choose_test_r2_ext (s t : state) :
  same_state s t -> choose_test_r2 data s == choose_test_r2 data' t.
Proof.
  intros (Hi & _ & Hlo & Hup & _).
  pose proof (get_ext data data' (i t) data_same) as Hd.
  unfold choose_test_r2. rewrite Hi, (ltb_ext _ _ _ _ Hd Hlo).
  now destruct (ltb _ _).
Qed.

Lemma loop_body_ext (s t : state) :
  same_state s t ->
  same_state (loop_body t_ppf np_sqrt data l p s)
             (loop_body t_ppf np_sqrt data' l p' t).
Proof.
  intros Hst.
  pose proof (exceeds_ext s t Hst) as Hex.
  pose proof (choose_test_r2_ext s t Hst) as Ht.
  destruct Hst as (Hi & Hr & Hlo & Hup & Hrsi & Hsh).
  pose proof (get_ext data data' (i t) data_same) as Hd.
  unfold loop_body; cbv zeta. rewrite Hex, Hi, <- n_ext.
  destruct (exceeds data' t).
  - pose proof (rsi_loop_ext (i t) _ _ _ _
        (range (i t + 1) (Nat.min (i t + l) (n data))) _ _ Hr Ht Hrsi) as Ha.
    pose proof (np_mean_ext _ _
        (slice_ext data data' (i t) (Nat.min (i t + l) (n data)) data_same)) as Hm.
    rewrite (gtb_ext _ _ 0 0 (get_ext _ _ (i t) Ha)) by reflexivity.
    destruct (gtb _ _); unfold same_state; cbn [i r1 r1_lower r1_upper rsi regime_shift_indices];
      repeat split; try assumption.
    + now rewrite Hm, diff_ext.
    + now rewrite Hm, diff_ext.
    + now rewrite Hsh.
  - unfold same_state; cbn [i r1 r1_lower r1_upper rsi regime_shift_indices].
    repeat split; try assumption.
    now rewrite Hr, Hd.
Qed.

Lemma while_loop_ext (fuel : nat) (s t : state) :
  same_state s t ->
  same_state (while_loop t_ppf np_sqrt data l p fuel s)
             (while_loop t_ppf np_sqrt data' l p' fuel t).
Proof.
  revert s t; induction fuel as [|fuel IH]; intros s t H; simpl; [exact H|].
  destruct H as (Hi & H). rewrite Hi, <- n_ext.
  destruct (i t <? n data)%nat.
  - apply IH, loop_body_ext. now split.
  - now split.
Qed.

(** The result does not depend on how the numbers are written: on
    arguments that are equal as numbers the function returns the same shift
    indices and traces with equal entries. *)
Theorem equal_inputs_equal_outputs :
  fst (rodionov_regimes t_ppf np_sqrt data l p) =
  fst (rodionov_regimes t_ppf np_sqrt data' l p') /\
  same_values (snd (rodionov_regimes t_ppf np_sqrt data l p))
              (snd (rodionov_regimes t_ppf np_sqrt data' l p')).
Proof.
  unfold rodionov_regimes, final; simpl. rewrite <- n_ext.
  destruct (while_loop_ext (n data) _ _ init_ext) as (_ & _ & _ & _ & Hrsi & Hsh).
  split; [exact Hsh | exact Hrsi].
Qed.

End Determinism.

(** ** The call on a store *)

Lemma put_length (h : store) (a : nat) (arr : list Q) :
  length (put h a arr) = length h.
Proof.
  revert a; induction h as [|x h IH]; intros [|a]; simpl; auto.
Qed.

Lemma array_at_put_same (h : store) (a : nat) (arr : list Q) :
  (a < length h)%nat -> array_at (put h a arr) a = arr.
Proof.
  unfold array_at. revert a; induction h as [|x h IH]; intros [|a] H; simpl in *;
    try lia; [reflexivity | apply IH; lia].
Qed.

Lemma array_at_put_other (h : store) (a b : nat) (arr : list Q) :
  a <> b -> array_at (put h a arr) b = array_at h b.
Proof.
  unfold array_at. revert a b; induction h as [|x h IH]; intros [|a] [|b] H;
    simpl; auto; try congruence.
Qed.

Lemma array_at_allocate_old (h : store) (arr : list Q) (a : nat) :
  (a < length h)%nat -> array_at (h ++ [arr]) a = array_at h a.
Proof. intros H. unfold array_at. now apply app_nth1. Qed.

Lemma array_at_allocate_new (h : store) (arr : list Q) :
  array_at (h ++ [arr]) (length h) = arr.
Proof. unfold array_at. apply nth_middle. Qed.

Section StoreSim.

Variables (t_ppf : Q -> Z -> Q) (np_sqrt : Q -> Q).
Variables data_at rsi_at : nat.
Variable data : list Q.
Variable l : nat.
Variable p : Q.

(** The trace is not the caller's array. *)
Hypothesis apart : data_at <> rsi_at.

Lemma s_rsi_add_sim (j : nat) (m t : Q) (k : nat) (h : store) :
  (rsi_at < length h)%nat -> array_at h data_at = data ->
  length (s_rsi_add data_at rsi_at l (avg_var data l) j m t k h) = length h /\
  (forall a, a <> rsi_at ->
     array_at (s_rsi_add data_at rsi_at l (avg_var data l) j m t k h) a
     = array_at h a) /\
  array_at (s_rsi_add data_at rsi_at l (avg_var data l) j m t k h) rsi_at
  = rsi_add data l j m t k (array_at h rsi_at).
Proof.
  intros Hr Hd. unfold s_rsi_add, rsi_add, load, write. rewrite Hd.
  destruct (gtb (get data j) m); [|destruct (ltb (get data j) m)];
    repeat split; auto using put_length;
    try (intros a Ha; apply array_at_put_other; congruence);
    now apply array_at_put_same.
Qed.

Lemma s_rsi_loop_sim (j : nat) (m t : Q) (ks : list nat) (h : store) :
  (rsi_at < length h)%nat -> array_at h data_at = data ->
  length (s_rsi_loop data_at rsi_at l (avg_var data l) j m t ks h) = length h /\
  (forall a, a <> rsi_at ->
     array_at (s_rsi_loop data_at rsi_at l (avg_var data l) j m t ks h) a
     = array_at h a) /\
  array_at (s_rsi_loop data_at rsi_at l (avg_var data l) j m t ks h) rsi_at
  = rsi_loop data l j m t ks (array_at h rsi_at).
Proof.
  revert h; induction ks as [|k ks IH]; intros h Hr Hd; simpl.
  - repeat split.
  - destruct (s_rsi_add_sim j m t k h Hr Hd) as (Hlen & Hother & Hrsi).
    assert (Htest :
      load (s_rsi_add data_at rsi_at l (avg_var data l) j m t k h) rsi_at j
      = get (rsi_add data l j m t k (array_at h rsi_at)) j)
      by (unfold load; now rewrite Hrsi).
    rewrite !Htest.
    destruct (ltb _ 0).
    + unfold write. rewrite Hrsi. repeat split.
      * now rewrite put_length.
      * intros a Ha. rewrite array_at_put_other by congruence. now apply Hother.
      * apply array_at_put_same. now rewrite Hlen.
    + destruct (IH (s_rsi_add data_at rsi_at l (avg_var data l) j m t k h))
        as (Hlen' & Hother' & Hrsi').
      * now rewrite Hlen.
      * rewrite Hother by exact apart. exact Hd.
      * repeat split.
        -- now rewrite Hlen'.
        -- intros a Ha. rewrite Hother' by exact Ha. now apply Hother.
        -- now rewrite Hrsi', Hrsi.
Qed.

Lemma s_loop_body_sim (f : frame) :
  (rsi_at < length (mem f))%nat -> array_at (mem f) data_at = data ->
  let f' := s_loop_body data_at rsi_at (n data) l (avg_var data l)
                        (diff t_ppf np_sqrt data l p) f in
  length (mem f') = length (mem f) /\
  (forall a, a <> rsi_at -> array_at (mem f') a = array_at (mem f) a) /\
  view rsi_at f' = loop_body t_ppf np_sqrt data l p (view rsi_at f).
Proof.
  intros Hr Hd; cbv zeta.
  unfold s_loop_body, loop_body, exceeds, choose_test_r2, load; cbv zeta.
  rewrite Hd. cbn [view i r1 r1_lower r1_upper rsi regime_shift_indices].
  destruct (ltb (get data (fr_i f)) (fr_r1_lower f)
            || gtb (get data (fr_i f)) (fr_r1_upper f)).
  - match goal with
    | |- context [s_rsi_loop _ _ _ _ ?j ?m ?t ?ks (mem f)] =>
        destruct (s_rsi_loop_sim j m t ks (mem f) Hr Hd) as (Hlen & Hother & Hrsi)
    end.
    rewrite Hrsi.
    destruct (gtb _ 0); cbn [mem]; repeat split; try assumption.
    + unfold view; cbn [fr_i fr_r1 fr_r1_lower fr_r1_upper fr_shifts mem].
      rewrite Hrsi, (Hother data_at apart), Hd. reflexivity.
    + unfold view; cbn [fr_i fr_r1 fr_r1_lower fr_r1_upper fr_shifts mem].
      rewrite Hrsi. reflexivity.
  - cbn [mem]. repeat split.
Qed.

Lemma s_while_loop_sim (fuel : nat) (f : frame) :
  (rsi_at < length (mem f))%nat -> array_at (mem f) data_at = data ->
  let f' := s_while_loop data_at rsi_at (n data) l (avg_var data l)
                         (diff t_ppf np_sqrt data l p) fuel f in
  length (mem f') = length (mem f) /\
  (forall a, a <> rsi_at -> array_at (mem f') a = array_at (mem f) a) /\
  view rsi_at f' = while_loop t_ppf np_sqrt data l p fuel (view rsi_at f).
Proof.
  revert f; induction fuel as [|fuel IH]; intros f Hr Hd; cbv zeta; simpl.
  - repeat split.
  - change (i (view rsi_at f)) with (fr_i f).
    destruct (fr_i f <? n data)%nat; [|repeat split].
    destruct (s_loop_body_sim f Hr Hd) as (Hlen & Hother & Hview).
    cbv zeta in Hlen, Hother, Hview.
    destruct (IH (s_loop_body data_at rsi_at (n data) l (avg_var data l)
                              (diff t_ppf np_sqrt data l p) f))
      as (Hlen' & Hother' & Hview').
    + now rewrite Hlen.
    + rewrite Hother by exact apart. exact Hd.
    + cbv zeta in Hlen', Hother', Hview'. repeat split.
      * now rewrite Hlen'.
      * intros a Ha. rewrite Hother' by exact Ha. now apply Hother.
      * now rewrite Hview', Hview.
Qed.

End StoreSim.

(** The call, with its locals named as in the function. *)
Lemma call_unfold (t_ppf : Q -> Z -> Q) (np_sqrt : Q -> Q)
      (h : store) (data_at : nat) (l : nat) (p : Q) :
  (data_at < length h)%nat ->
  let data := array_at h data_at in
  let f := s_while_loop data_at (length h) (n data) l (avg_var data l)
             (diff t_ppf np_sqrt data l p) (n data)
             {| fr_i := l + 1; fr_r1 := r1 (init t_ppf np_sqrt data l p);
                fr_r1_lower := r1_lower (init t_ppf np_sqrt data l p);
                fr_r1_upper := r1_upper (init t_ppf np_sqrt data l p);
                fr_shifts := [];
                mem := h ++ [np_zeros (n data)] |} in
  call t_ppf np_sqrt h data_at l p = (mem f, (fr_shifts f, length h)).
Proof.
  intros Hd; cbv zeta.
  unfold call, allocate, init, diff, t_stat, avg_var, n; cbv beta iota zeta.
  cbn [r1 r1_lower r1_upper].
  rewrite array_at_allocate_old by exact Hd. reflexivity.
Qed.

(** C9.  A call reads the caller's array and writes only to the array it
    allocates: every array of the caller's store, the input among them, is
    left as it was, and the trace is at a fresh address.  What it returns is
    a function of the contents of the input, of [l] and of [p]: calls from
    two stores, whatever else they hold and wherever the input lies in them,
    return the same shift indices and the same trace when the inputs are
    equal. *)
Theorem call_pure_and_deterministic
        (t_ppf : Q -> Z -> Q) (np_sqrt : Q -> Q)
        (h : store) (data_at : nat) (l : nat) (p : Q) :
  (data_at < length h)%nat ->
  let h' := fst (call t_ppf np_sqrt h data_at l p) in
  let shifts := fst (snd (call t_ppf np_sqrt h data_at l p)) in
  let rsi_at := snd (snd (call t_ppf np_sqrt h data_at l p)) in
  rsi_at = length h /\
  length h' = S (length h) /\
  (forall a, (a < length h)%nat -> array_at h' a = array_at h a) /\
  (shifts, array_at h' rsi_at)
    = rodionov_regimes t_ppf np_sqrt (array_at h data_at) l p /\
  (forall h2 d2, (d2 < length h2)%nat ->
     array_at h2 d2 = array_at h data_at ->
     fst (snd (call t_ppf np_sqrt h2 d2 l p)) = shifts /\
     array_at (fst (call t_ppf np_sqrt h2 d2 l p))
              (snd (snd (call t_ppf np_sqrt h2 d2 l p)))
     = array_at h' rsi_at).
Proof.
  assert (Hrun : forall g d, (d < length g)%nat ->
            snd (snd (call t_ppf np_sqrt g d l p)) = length g /\
            length (fst (call t_ppf np_sqrt g d l p)) = S (length g) /\
            (forall a, (a < length g)%nat ->
               array_at (fst (call t_ppf np_sqrt g d l p)) a = array_at g a) /\
            (fst (snd (call t_ppf np_sqrt g d l p)),
             array_at (fst (call t_ppf np_sqrt g d l p)) (length g))
            = rodionov_regimes t_ppf np_sqrt (array_at g d) l p).
  { intros g d Hd. pose proof (call_unfold t_ppf np_sqrt g d l p Hd) as Hc.
    cbv zeta in Hc. rewrite Hc. cbn [fst snd].
    match type of Hc with
    | _ = (mem (s_while_loop _ _ _ _ _ _ ?fuel ?f0), _) =>
        destruct (s_while_loop_sim t_ppf np_sqrt d (length g) (array_at g d) l p
                    ltac:(lia) fuel f0) as (Hlen & Hother & Hview)
    end.
    - cbn [mem]. rewrite length_app; simpl; lia.
    - cbn [mem]. now apply array_at_allocate_old.
    - cbv zeta in Hlen, Hother, Hview. cbn [mem] in Hlen, Hother.
      split; [reflexivity|]. split; [rewrite Hlen, length_app; simpl; lia|].
      split.
      + intros a Ha. rewrite Hother by lia. now apply array_at_allocate_old.
      + unfold rodionov_regimes, final.
        match type of Hview with
        | _ = while_loop _ _ _ _ _ _ ?st0 =>
            replace (init t_ppf np_sqrt (array_at g d) l p) with st0
        end.
        * rewrite <- Hview. reflexivity.
        * unfold view; cbn [fr_i fr_r1 fr_r1_lower fr_r1_upper fr_shifts mem].
          rewrite array_at_allocate_new. reflexivity. }
  intros Hd; cbv zeta.
  destruct (Hrun h data_at Hd) as (Haddr & Hlen & Hframe & Hout).
  split; [exact Haddr|]. split; [exact Hlen|]. split; [exact Hframe|].
  split; [now rewrite Haddr|].
  intros h2 d2 Hd2 Hsame.
  destruct (Hrun h2 d2 Hd2) as (Haddr2 & _ & _ & Hout2).
  rewrite Hsame, <- Hout in Hout2. rewrite Haddr, Haddr2.
  inversion Hout2 as [[Hshifts Htrace]]. now split.
Qed.

(** ** The regimes the plots draw *)

Lemma slice_app (v : list Q) (a b c : nat) :
  (a <= b <= c)%nat -> slice v a b ++ slice v b c = slice v a c.
Proof.
  intros H. unfold slice.
  replace (skipn b v) with (skipn (b - a) (skipn a v))
    by (rewrite skipn_skipn; f_equal; lia).
  replace (c - a)%nat with ((b - a) + (c - b))%nat by lia.
  generalize (skipn a v) (b - a)%nat (c - b)%nat. clear.
  intros w u; revert w. induction u as [|u IH]; intros [|x w] q; simpl;
    try reflexivity.
  - now rewrite firstn_nil.
  - now rewrite IH.
Qed.

Lemma sorted_last_greater (x y : nat) (ys : list nat) :
  StronglySorted lt (x :: y :: ys) -> (x < last (y :: ys) 0)%nat.
Proof.
  intros H. inversion H as [|? ? _ Hall]; subst.
  rewrite Forall_forall in Hall. apply Hall.
  clear. revert y. induction ys as [|z ys IH]; intros y; [now left|].
  right. apply IH.
Qed.

Lemma sorted_suffix (pre suf : list nat) :
  StronglySorted lt (pre ++ suf) -> StronglySorted lt suf.
Proof.
  induction pre as [|x pre IH]; simpl; [auto|].
  intros H. inversion H; subst. now apply IH.
Qed.

Lemma last_app_cons (pre : list nat) (x : nat) (suf : list nat) :
  last (pre ++ x :: suf) 0%nat = last (x :: suf) 0%nat.
Proof.
  induction pre as [|a pre IH]; [reflexivity|].
  change ((a :: pre) ++ x :: suf) with (a :: (pre ++ x :: suf)).
  destruct (pre ++ x :: suf) eqn:E; [destruct pre; discriminate E|].
  simpl in *. exact IH.
Qed.

(** On increasing shift indices the regime of position [idx] is the
    [idx]-th of [segments]. *)
Lemma regime_values_at (values : list Q) (pre : list nat) (x : nat)
      (suf : list nat) :
  StronglySorted lt (pre ++ x :: suf) ->
  regime_values values (pre ++ x :: suf) (length pre) =
  slice values x (match suf with
                  | [] => length values - 1
                  | y :: _ => y
                  end)%nat.
Proof.
  intros Hs. unfold regime_values, r_end.
  rewrite last_app_cons, nth_middle.
  destruct suf as [|y ys].
  - simpl. now rewrite Nat.eqb_refl.
  - pose proof (sorted_last_greater x y ys (sorted_suffix pre _ Hs)) as Hlt.
    replace (x =? last (x :: y :: ys) 0)%nat with false
      by (symmetry; apply Nat.eqb_neq; simpl in *; lia).
    replace (length pre + 1)%nat with (length (pre ++ [x])) 
      by (rewrite length_app; reflexivity).
    replace (pre ++ x :: y :: ys) with ((pre ++ [x]) ++ y :: ys)
      by (now rewrite <- app_assoc).
    now rewrite nth_middle.
Qed.

Lemma regime_values_segments (values : list Q) (pre suf : list nat) :
  StronglySorted lt (pre ++ suf) ->
  map (regime_values values (pre ++ suf)) (seq (length pre) (length suf)) =
  segments values suf.
Proof.
  revert pre; induction suf as [|x suf IH]; intros pre Hs; [reflexivity|].
  simpl. f_equal.
  - now apply regime_values_at.
  - specialize (IH (pre ++ [x])).
    rewrite <- app_assoc, length_app, Nat.add_1_r in IH.
    now apply IH.
Qed.

Lemma segments_concat (values : list Q) (a : nat) (xs : list nat) :
  StronglySorted lt (a :: xs) ->
  Forall (fun s => (s <= length values - 1)%nat) (a :: xs) ->
  concat (segments values (a :: xs)) = slice values a (length values - 1).
Proof.
  revert a; induction xs as [|y ys IH]; intros a Hs Hall.
  - simpl. apply app_nil_r.
  - change (concat (segments values (a :: y :: ys)))
      with (slice values a y ++ concat (segments values (y :: ys))).
    inversion Hs as [|? ? Hs' Hlt]; subst.
    inversion Hall as [|? ? Ha Hall']; subst.
    rewrite IH by assumption.
    apply slice_app. inversion Hlt; subst. inversion Hall'; subst. lia.
Qed.

(** X7.  For increasing shift indices inside the series, the regimes
    drawn, the one before the first shift included, follow one another
    without gap or overlap and together make up the series without its
    last observation: the end [-1] of the last regime leaves
    [Z.values[-1]] out of its mean. *)
Theorem regimes_tile_all_but_last (values : list Q) (s0 : nat) (rest : list nat) :
  StronglySorted lt (s0 :: rest) ->
  Forall (fun s => (s <= length values - 1)%nat) (s0 :: rest) ->
  slice values 0 s0 ++
  concat (map (regime_values values (s0 :: rest))
              (range 0 (length (s0 :: rest))))
  = removelast values.
Proof.
  intros Hs Hall. unfold range. rewrite Nat.sub_0_r.
  pose proof (regime_values_segments values [] (s0 :: rest) Hs) as Hseg.
  change ([] ++ s0 :: rest) with (s0 :: rest) in Hseg.
  change (length (@nil nat)) with 0%nat in Hseg.
  rewrite Hseg, segments_concat by assumption.
  inversion Hall; subst.
  rewrite slice_app by lia.
  unfold slice. rewrite Nat.sub_0_r. simpl skipn.
  rewrite removelast_firstn_len. now rewrite Nat.sub_1_r.
Qed.

Lemma segments_nonempty (values : list Q) (xs : list nat) :
  StronglySorted lt xs ->
  Forall (fun s => (s + 1 < length values)%nat) xs ->
  Forall (fun seg => (1 <= length seg)%nat) (segments values xs).
Proof.
  induction xs as [|x xs IH]; intros Hs Hall; [constructor|].
  inversion Hs as [|? ? Hs' Hlt]; subst.
  inversion Hall as [|? ? Hx Hall']; subst.
  simpl. constructor; [|now apply IH].
  destruct xs as [|y ys].
  - rewrite slice_length; lia.
  - inversion Hlt; subst. inversion Hall'; subst. rewrite slice_length; lia.
Qed.

Lemma r_end_at (len : nat) (pre : list nat) (x : nat) (suf : list nat) :
  StronglySorted lt (pre ++ x :: suf) ->
  r_end len (pre ++ x :: suf) (length pre) =
  match suf with
  | [] => (len - 1)%nat
  | y :: _ => y
  end.
Proof.
  intros Hs. unfold r_end.
  rewrite last_app_cons, nth_middle.
  destruct suf as [|y ys].
  - simpl. now rewrite Nat.eqb_refl.
  - pose proof (sorted_last_greater x y ys (sorted_suffix pre _ Hs)) as Hlt.
    replace (x =? last (x :: y :: ys) 0)%nat with false
      by (symmetry; apply Nat.eqb_neq; simpl in *; lia).
    replace (length pre + 1)%nat with (length (pre ++ [x])) 
      by (rewrite length_app; reflexivity).
    replace (pre ++ x :: y :: ys) with ((pre ++ [x]) ++ y :: ys)
      by (now rewrite <- app_assoc).
    now rewrite nth_middle.
Qed.

Lemma regimes_of_run
        (t_ppf : Q -> Z -> Q) (np_sqrt : Q -> Q) (data : list Q) (l : nat) (p : Q) :
  let shifts := fst (rodionov_regimes t_ppf np_sqrt data l p) in
  (forall s0 rest, shifts = s0 :: rest ->
     (l + 1 <= s0 < n data)%nat /\ length (slice data 0 s0) = s0) /\
  (forall idx, (idx < length shifts)%nat ->
     (nth idx shifts 0 < r_end (n data) shifts idx < n data)%nat /\
     length (regime_values data shifts idx) =
       (r_end (n data) shifts idx - nth idx shifts 0)%nat).
Proof.
  cbv zeta. unfold rodionov_regimes; simpl.
  destruct (final_inv t_ppf np_sqrt data l p) as (_ & _ & Hs & Hall & _).
  revert Hs Hall.
  generalize (regime_shift_indices (final t_ppf np_sqrt data l p)).
  intros shifts Hs Hall. rewrite Forall_forall in Hall. split.
  - intros s0 rest ->.
    destruct (Hall s0 (or_introl eq_refl)) as (H1 & _ & H2).
    split; [lia|]. rewrite slice_length; unfold n in *; lia.
  - intros idx Hidx.
    destruct (nth_split shifts 0%nat Hidx) as (pre & suf & Hsplit & Hlen).
    remember (nth idx shifts 0%nat) as x eqn:Hxdef. clear Hxdef.
    subst shifts idx.
    assert (Hx : (x + 1 < n data)%nat).
    { apply Hall. apply in_or_app; right; now left. }
    rewrite (r_end_at (n data) pre x suf Hs).
    assert (Hbounds : (x < match suf with [] => (n data - 1)%nat | y :: _ => y end
                         < n data)%nat).
    { destruct suf as [|y ys]; [lia|].
      assert (Hy : (y + 1 < n data)%nat).
      { apply Hall. apply in_or_app; right; right; now left. }
      apply sorted_suffix in Hs.
      inversion Hs as [|? ? _ Hlt]; subst. inversion Hlt; subst. lia. }
    split; [exact Hbounds|].
    fold (n data). rewrite (regime_values_at data pre x suf Hs).
    rewrite slice_length; unfold n in *; lia.
Qed.

(** X8.  On the indices [rodionov_regimes] returns, every regime the plots
    draw is well formed: the first shift is at least [l + 1], so the regime
    before it is not empty; for every shift the regime that starts there
    ends strictly later, at a valid position, so no mean is taken of an
    empty slice and [shift_indices[i+1]] and [Z.index[r_end]] are never read
    out of range; and every line drawn runs from a position to a later one
    inside the series. *)
Theorem drawn_regimes_well_formed
        (t_ppf : Q -> Z -> Q) (np_sqrt : Q -> Q) (data : list Q) (l : nat) (p : Q) :
  let shifts := fst (rodionov_regimes t_ppf np_sqrt data l p) in
  (forall s0 rest, shifts = s0 :: rest ->
     (l + 1 <= s0 < n data)%nat /\ length (slice data 0 s0) = s0) /\
  (forall idx, (idx < length shifts)%nat ->
     (nth idx shifts 0 < r_end (n data) shifts idx < n data)%nat /\
     (1 <= length (regime_values data shifts idx))%nat) /\
  Forall (fun line => (fst (fst line) < snd (fst line) < n data)%nat)
         (regime_lines data shifts).
Proof.
  cbv zeta. destruct (regimes_of_run t_ppf np_sqrt data l p) as [Hfirst Hrest].
  cbv zeta in Hfirst, Hrest. split; [exact Hfirst|]. split.
  - intros idx Hidx. destruct (Hrest idx Hidx) as [Hb Hlen]. split; [exact Hb|lia].
  - unfold regime_lines.
    destruct (fst (rodionov_regimes t_ppf np_sqrt data l p)) as [|s0 rest] eqn:E;
      [constructor|].
    constructor.
    + simpl. destruct (Hfirst s0 rest eq_refl) as [H _]. lia.
    + apply Forall_forall. intros line Hline.
      apply in_map_iff in Hline. destruct Hline as (idx & <- & Hidx).
      apply in_range in Hidx. simpl fst; simpl snd.
      fold (n data). apply Hrest. lia.
Qed.

(** ** The counter of the sweep *)

Lemma fold_nth_range (A : Type) (f : A -> nat -> A) (pre suf : list nat) (c : A) :
  fold_left (fun a idx => f a (nth idx (pre ++ suf) 0%nat))
            (seq (length pre) (length suf)) c
  = fold_left f suf c.
Proof.
  revert pre c; induction suf as [|x suf IH]; intros pre c; [reflexivity|].
  simpl. rewrite nth_middle.
  specialize (IH (pre ++ [x]) (f c x)).
  rewrite <- app_assoc, length_app, Nat.add_1_r in IH. exact IH.
Qed.

(** The loop over positions of the list adds one at each listed index. *)
Lemma count_shifts_fold (shifts : list nat) (c : list Q) :
  count_shifts shifts c =
  fold_left (fun a r => set a r (get a r + 1)) shifts c.
Proof.
  unfold count_shifts, range. rewrite Nat.sub_0_r.
  exact (fold_nth_range (list Q) (fun a r => set a r (get a r + 1)) [] shifts c).
Qed.

Lemma count_shifts_length (shifts : list nat) (c : list Q) :
  length (count_shifts shifts c) = length c.
Proof.
  rewrite count_shifts_fold. revert c.
  induction shifts as [|x xs IH]; intros c; simpl; [reflexivity|].
  now rewrite IH, set_length.
Qed.

Lemma sorted_head_not_in (x : nat) (xs : list nat) (k : nat) :
  StronglySorted lt (x :: xs) -> existsb (Nat.eqb x) xs = false.
Proof.
  intros H. inversion H as [|? ? _ Hlt]; subst.
  apply not_true_iff_false. intros Hex.
  apply existsb_exists in Hex. destruct Hex as (y & Hy & Heq).
  apply Nat.eqb_eq in Heq. subst y.
  rewrite Forall_forall in Hlt. apply Hlt in Hy. lia.
Qed.

Lemma count_shifts_get (shifts : list nat) (c : list Q) (k : nat) :
  StronglySorted lt shifts ->
  Forall (fun s => (s < length c)%nat) shifts ->
  get (count_shifts shifts c) k ==
  get c k + (if existsb (Nat.eqb k) shifts then 1 else 0).
Proof.
  rewrite count_shifts_fold. revert c.
  induction shifts as [|x xs IH]; intros c Hs Hall; simpl.
  - ring.
  - inversion Hs as [|? ? Hs' _]; subst.
    inversion Hall as [|? ? Hx Hall']; subst.
    rewrite IH; [|exact Hs'|].
    2:{ eapply Forall_impl; [|exact Hall']. intros a Ha. now rewrite set_length. }
    destruct (Nat.eqb_spec k x) as [->|Hne]; simpl.
    + rewrite get_set_same by exact Hx.
      rewrite (sorted_head_not_in x xs x Hs). ring.
    + rewrite get_set_other by congruence. reflexivity.
Qed.

Section Sweep.

Variables (t_ppf : Q -> Z -> Q) (np_sqrt : Q -> Q).
Variables (data : list Q) (p : Q).

Lemma run_sorted_in_range (l : nat) :
  StronglySorted lt (fst (rodionov_regimes t_ppf np_sqrt data l p)) /\
  Forall (fun s => (l + 1 <= s /\ s < n data)%nat)
         (fst (rodionov_regimes t_ppf np_sqrt data l p)).
Proof.
  destruct (final_inv t_ppf np_sqrt data l p) as (_ & _ & Hs & Hall & _).
  split; [exact Hs|]. eapply Forall_impl; [|exact Hall]. simpl; intros; lia.
Qed.

Lemma sweep_from (ls : list nat) (c : list Q) (k : nat) :
  length c = n data ->
  let c' := fold_left (fun a l_length =>
                count_shifts (fst (rodionov_regimes t_ppf np_sqrt data l_length p)) a)
              ls c in
  length c' = n data /\
  get c' k ==
  get c k + of_nat (length (filter
     (fun l => existsb (Nat.eqb k) (fst (rodionov_regimes t_ppf np_sqrt data l p)))
     ls)).
Proof.
  revert c; induction ls as [|l ls IH]; intros c Hlen; cbv zeta.
  - simpl. split; [exact Hlen|]. unfold of_nat; simpl. ring.
  - simpl fold_left.
    destruct (run_sorted_in_range l) as [Hs Hall].
    specialize (IH (count_shifts (fst (rodionov_regimes t_ppf np_sqrt data l p)) c)).
    cbv zeta in IH. destruct IH as [IHlen IHget];
      [now rewrite count_shifts_length|].
    split; [exact IHlen|]. rewrite IHget.
    rewrite count_shifts_get; [|exact Hs|].
    2:{ eapply Forall_impl; [|exact Hall]. simpl. intros a Ha. lia. }
    simpl filter.
    destruct (existsb _ _); [|ring].
    change (length (?x :: ?xs)) with (S (length xs)).
    simpl length. rewrite of_nat_succ. ring.
Qed.

(** X9.  After the sweep over the regime lengths [l_min .. l_max - 1], the
    counter has the length of the series and its entry at [k] is the number
    of lengths for which [k] was returned as a shift; so it is between zero
    and the number of lengths tried (the drawn frequency is within [0, 1]),
    and it is zero at every position up to [l_min]. *)
Theorem shift_counter_counts (l_min l_max k : nat) :
  let run := fun l => rodionov_regimes t_ppf np_sqrt data l p in
  let counter := sweep run (n data) l_min l_max in
  length counter = n data /\
  get counter k ==
    of_nat (length (filter (fun l => existsb (Nat.eqb k) (fst (run l)))
                           (range l_min l_max))) /\
  0 <= get counter k /\
  get counter k <= of_nat (length (range l_min l_max)) /\
  ((k <= l_min)%nat -> get counter k == 0).
Proof.
  cbv zeta. unfold sweep.
  destruct (sweep_from (range l_min l_max) (np_zeros (n data)) k
                       (zeros_length (n data))) as [Hlen Hget].
  cbv zeta in Hget. rewrite get_zeros in Hget.
  split; [exact Hlen|].
  assert (Heq : get (fold_left
            (fun c l_length =>
               count_shifts (fst (rodionov_regimes t_ppf np_sqrt data l_length p)) c)
            (range l_min l_max) (np_zeros (n data))) k ==
          of_nat (length (filter
            (fun l => existsb (Nat.eqb k)
                        (fst (rodionov_regimes t_ppf np_sqrt data l p)))
            (range l_min l_max)))) by (rewrite Hget; ring).
  split; [exact Heq|]. rewrite Heq. repeat split.
  - unfold of_nat. change 0 with (inject_Z 0). rewrite <- Zle_Qle. lia.
  - unfold of_nat. rewrite <- Zle_Qle. apply inj_le, filter_length_le.
  - intros Hk.
    replace (filter _ _) with (@nil nat); [reflexivity|].
    symmetry. apply length_zero_iff_nil.
    assert (Hnone : forall ls, Forall (fun l => (l_min <= l)%nat) ls ->
              length (filter (fun l => existsb (Nat.eqb k)
                 (fst (rodionov_regimes t_ppf np_sqrt data l p))) ls) = 0%nat).
    { induction ls as [|l ls IH]; intros Hls; [reflexivity|].
      inversion Hls as [|? ? Hl Hls']; subst. simpl.
      destruct (existsb _ _) eqn:E; [|now apply IH].
      exfalso. apply existsb_exists in E. destruct E as (y & Hy & Hyk).
      apply Nat.eqb_eq in Hyk. subst y.
      destruct (run_sorted_in_range l) as [_ Hall].
      rewrite Forall_forall in Hall. apply Hall in Hy. lia. }
    apply Hnone. apply Forall_forall. intros x Hx. apply in_range in Hx. lia.
Qed.

End Sweep.

(** ** The function on concrete series *)

Lemma sqrt_6_ext (x x' : Q) : x == x' -> sqrt_6 x == sqrt_6 x'.
Proof.
  unfold Qeq at 1. intros H. unfold sqrt_6.
  replace (Qnum x' * 1000000000000 / Z.pos (Qden x'))%Z
    with (Qnum x * 1000000000000 / Z.pos (Qden x))%Z; [reflexivity|].
  rewrite <- (Z.div_mul_cancel_r (Qnum x * 1000000000000) (Z.pos (Qden x))
                (Z.pos (Qden x'))) by lia.
  rewrite <- (Z.div_mul_cancel_r (Qnum x' * 1000000000000) (Z.pos (Qden x'))
                (Z.pos (Qden x))) by lia.
  f_equal; lia.
Qed.

Lemma ppf_18_ext (q q' : Q) (df : Z) : q == q' -> ppf_18 q df == ppf_18 q' df.
Proof. reflexivity. Qed.

(** Two plateaus, [l = 4]: one shift, at the first observation of the
    second plateau, and the only positive RSI entry is there. *)
Example plateau_one_shift :
  fst (rodionov_regimes ppf_18 sqrt_6 plateau 4 (5 # 100)) = [12%nat] /\
  map Qred (snd (rodionov_regimes ppf_18 sqrt_6 plateau 4 (5 # 100))) =
  [0;0;0;0;0;0;0;0;0;0;0;0; 488344327 # 265000000; 0;0;0;0;0;0;0;0;0;0;0].
Proof. split; vm_compute; reflexivity. Qed.

(** A single outlier in a quiet series is rejected: the observation after
    it brings the index below zero. *)
Example outlier_rejected :
  detect ppf_18 sqrt_6 spike 4 (5 # 100) = Return [] (np_zeros 14).
Proof. vm_compute. reflexivity. Qed.

Lemma rsi_accumulation_witness :
  let st := while_loop ppf_18 sqrt_6 plateau 4 (5 # 100) 7
                       (init ppf_18 sqrt_6 plateau 4 (5 # 100)) in
  (i st = 12)%nat /\
  exceeds plateau st = true /\
  get (rsi (loop_body ppf_18 sqrt_6 plateau 4 (5 # 100) st)) 12 =
  accumulate plateau 4 12 (r1 st) (choose_test_r2 plateau st)
             (range 13 (Nat.min 16 24)) (get (rsi st) 12).
Proof.
  cbv zeta. split; [vm_compute; reflexivity|]. split; [vm_compute; reflexivity|].
  refine (proj1 (proj2 (proj2
    (rsi_accumulation ppf_18 sqrt_6 plateau 4 (5 # 100)
       (while_loop ppf_18 sqrt_6 plateau 4 (5 # 100) 7
                   (init ppf_18 sqrt_6 plateau 4 (5 # 100))) _ _ _)))).
  - vm_compute. lia.
  - vm_compute. reflexivity.
  - vm_compute. reflexivity.
Defined.

Lemma shift_confirmation_witness :
  let st := while_loop ppf_18 sqrt_6 plateau 4 (5 # 100) 7
                       (init ppf_18 sqrt_6 plateau 4 (5 # 100)) in
  let st' := loop_body ppf_18 sqrt_6 plateau 4 (5 # 100) st in
  0 < get (rsi st') 12 /\
  regime_shift_indices st' = [12%nat] /\
  r1 st' = np_mean (slice plateau 12 16).
Proof.
  cbv zeta.
  assert (Hpos : 0 < get (rsi (loop_body ppf_18 sqrt_6 plateau 4 (5 # 100)
            (while_loop ppf_18 sqrt_6 plateau 4 (5 # 100) 7
               (init ppf_18 sqrt_6 plateau 4 (5 # 100))))) 12)
    by (vm_compute; reflexivity).
  split; [exact Hpos|].
  assert (Hi : (i (while_loop ppf_18 sqrt_6 plateau 4 (5 # 100) 7
                     (init ppf_18 sqrt_6 plateau 4 (5 # 100))) < n plateau)%nat)
    by (vm_compute; lia).
  assert (Hex : exceeds plateau
                  (while_loop ppf_18 sqrt_6 plateau 4 (5 # 100) 7
                     (init ppf_18 sqrt_6 plateau 4 (5 # 100))) = true)
    by (vm_compute; reflexivity).
  destruct (proj1 (shift_confirmation ppf_18 sqrt_6 plateau 4 (5 # 100) _ Hi Hex)
                  Hpos) as (Hsh & Hr1 & _).
  split; [exact Hsh | exact Hr1].
Defined.

(** C6 on the code.  On [plateau] with [l = 4] the first pass of the scan
    finds [data[5]] within the bounds and moves [r1] from [0] to [1/40];
    the bounds stay at [0 - diff] and [0 + diff], so after the pass they
    are not [r1 - diff] and [r1 + diff]. *)
Theorem bounds_stale_after_update :
  let st0 := init ppf_18 sqrt_6 plateau 4 (5 # 100) in
  let st1 := loop_body ppf_18 sqrt_6 plateau 4 (5 # 100) st0 in
  let d := diff ppf_18 sqrt_6 plateau 4 (5 # 100) in
  exceeds plateau st0 = false /\
  r1 st0 == 0 /\ r1 st1 == 1 # 40 /\
  r1_lower st1 == 0 - d /\ r1_upper st1 == 0 + d /\
  ~ r1_lower st1 == r1 st1 - d /\
  ~ r1_upper st1 == r1 st1 + d.
Proof.
  cbv zeta. repeat split; try (vm_compute; reflexivity);
    vm_compute; intros H; discriminate H.
Qed.

(** C7 as stated fails: with three observations and [l = 5] the call
    returns an empty list and a zero trace; it does not raise. *)
Lemma short_series_not_rejected :
  (n three <= 5)%nat /\
  detect ppf_18 sqrt_6 three 5 (5 # 100) = Return [] [0; 0; 0] /\
  detect ppf_18 sqrt_6 three 5 (5 # 100) <> Raise InvalidParameter.
Proof.
  split; [vm_compute; lia|]. split; [vm_compute; reflexivity|].
  vm_compute. intros H; discriminate H.
Qed.

Lemma short_series_returns_witness :
  detect ppf_18 sqrt_6 three 5 (5 # 100) = Return [] (np_zeros 3).
Proof.
  apply (short_series_returns ppf_18 sqrt_6 three 5 (5 # 100)).
  vm_compute. lia.
Defined.

(** C8 as stated fails: on fifty identical values with [l = 10] and
    [p = 0.05] the average variance is zero and the call returns an empty
    list and a zero trace; it does not raise. *)
Lemma constant_series_not_rejected :
  avg_var sevens 10 == 0 /\
  detect ppf_18 sqrt_6 sevens 10 (5 # 100) = Return [] (np_zeros 50) /\
  detect ppf_18 sqrt_6 sevens 10 (5 # 100) <> Raise DegenerateInput.
Proof.
  split; [vm_compute; reflexivity|]. split; [vm_compute; reflexivity|].
  vm_compute. intros H; discriminate H.
Qed.

Lemma get_repeat (c : Q) (m k : nat) : (k < m)%nat -> get (repeat c m) k = c.
Proof.
  unfold get. revert k; induction m as [|m IH]; intros [|k] H; simpl;
    try lia; [reflexivity | apply IH; lia].
Qed.

Lemma zero_threshold_returns_witness :
  detect ppf_18 sqrt_6 sevens 10 (5 # 100) = Return [] (np_zeros 50).
Proof.
  apply (zero_threshold_returns ppf_18 sqrt_6 sevens 10 (5 # 100)).
  - vm_compute. reflexivity.
  - intros k Hk. unfold sevens at 1. rewrite get_repeat.
    + vm_compute. reflexivity.
    + revert Hk. vm_compute. lia.
Defined.

Lemma equal_inputs_equal_outputs_witness :
  fst (rodionov_regimes ppf_18 sqrt_6 plateau 4 (5 # 100)) =
  fst (rodionov_regimes ppf_18 sqrt_6 plateau_unreduced 4 (1 # 20)) /\
  same_values (snd (rodionov_regimes ppf_18 sqrt_6 plateau 4 (5 # 100)))
              (snd (rodionov_regimes ppf_18 sqrt_6 plateau_unreduced 4 (1 # 20))).
Proof.
  apply (equal_inputs_equal_outputs ppf_18 sqrt_6 ppf_18_ext sqrt_6_ext).
  - vm_compute. repeat constructor.
  - reflexivity.
Defined.

Lemma sqrt_6_nonneg (x : Q) : 0 <= sqrt_6 x.
Proof.
  unfold sqrt_6, Qle; simpl. rewrite Z.mul_1_r. apply Z.sqrt_nonneg.
Qed.

Lemma unit_length_finds_nothing_witness :
  rodionov_regimes ppf_18 sqrt_6 plateau 1 (5 # 100) = ([], np_zeros 24).
Proof.
  apply (unit_length_finds_nothing ppf_18 sqrt_6 plateau 1 (5 # 100)). lia.
Defined.

Lemma confirmed_index_is_window_sum_witness :
  let st := while_loop ppf_18 sqrt_6 plateau 4 (5 # 100) 7
                       (init ppf_18 sqrt_6 plateau 4 (5 # 100)) in
  get (rsi (loop_body ppf_18 sqrt_6 plateau 4 (5 # 100) st)) 12 =
  running_total plateau 4 12 (r1 st) (choose_test_r2 plateau st)
                (range 13 (Nat.min 16 24)) (get (rsi st) 12).
Proof.
  cbv zeta.
  refine (proj1 (confirmed_index_is_window_sum ppf_18 sqrt_6 plateau 4 (5 # 100)
       (while_loop ppf_18 sqrt_6 plateau 4 (5 # 100) 7
                   (init ppf_18 sqrt_6 plateau 4 (5 # 100))) _ _ _ _)).
  - vm_compute. lia.
  - vm_compute. reflexivity.
  - vm_compute. reflexivity.
  - vm_compute. reflexivity.
Defined.

Lemma regimes_tile_all_but_last_witness :
  slice plateau 0 4 ++
  concat (map (regime_values plateau [4; 12]%nat) (range 0 2))
  = removelast plateau.
Proof.
  apply (regimes_tile_all_but_last plateau 4 [12%nat]).
  - repeat constructor.
  - repeat constructor; vm_compute; lia.
Defined.

Lemma spike_rejected_witness :
  let st := while_loop ppf_18 sqrt_6 spike 4 (5 # 100) 2
                       (init ppf_18 sqrt_6 spike 4 (5 # 100)) in
  get (rsi (loop_body ppf_18 sqrt_6 spike 4 (5 # 100) st)) 7 = 0 /\
  regime_shift_indices (loop_body ppf_18 sqrt_6 spike 4 (5 # 100) st) = [].
Proof.
  cbv zeta.
  assert (H1 : (1 <= 4)%nat) by lia.
  assert (H2 : (2 <= 4)%nat) by lia.
  destruct (spike_rejected ppf_18 sqrt_6 spike 4 (5 # 100) H1 sqrt_6_nonneg 2 H2)
    as (H0 & Hsh & _).
  - vm_compute. lia.
  - vm_compute. reflexivity.
  - left. split; vm_compute; reflexivity.
  - split; [exact H0 | exact Hsh].
Defined.

Lemma sustained_shift_confirmed_witness :
  let st := while_loop ppf_18 sqrt_6 plateau 4 (5 # 100) 7
                       (init ppf_18 sqrt_6 plateau 4 (5 # 100)) in
  0 < get (rsi (loop_body ppf_18 sqrt_6 plateau 4 (5 # 100) st)) 12 /\
  regime_shift_indices (loop_body ppf_18 sqrt_6 plateau 4 (5 # 100) st) = [12%nat].
Proof.
  cbv zeta.
  assert (H1 : (1 <= 4)%nat) by lia.
  assert (H2 : (2 <= 4)%nat) by lia.
  destruct (sustained_shift_confirmed ppf_18 sqrt_6 plateau 4 (5 # 100)
              H1 sqrt_6_nonneg 7 H2) as (Hpos & Hsh & _).
  - vm_compute. lia.
  - vm_compute. reflexivity.
  - left. split; [vm_compute; reflexivity|].
    intros k Hk.
    assert (Hk' : (k = 13 \/ k = 14 \/ k = 15)%nat).
    { revert Hk. vm_compute. lia. }
    destruct Hk' as [->|[->| ->]]; vm_compute; reflexivity.
  - split; [exact Hpos | exact Hsh].
Defined.

Lemma call_pure_and_deterministic_witness :
  snd (snd (call ppf_18 sqrt_6 caller_store 1 4 (5 # 100))) = 2%nat /\
  fst (snd (call ppf_18 sqrt_6 caller_store 1 4 (5 # 100))) = [12%nat] /\
  (forall a, (a < 2)%nat ->
     array_at (fst (call ppf_18 sqrt_6 caller_store 1 4 (5 # 100))) a
     = array_at caller_store a).
Proof.
  assert (Hd : (1 < length caller_store)%nat) by (vm_compute; lia).
  destruct (call_pure_and_deterministic ppf_18 sqrt_6 caller_store 1 4 (5 # 100) Hd)
    as (Haddr & _ & Hframe & _).
  split; [exact Haddr|]. split; [vm_compute; reflexivity | exact Hframe].
Defined.
